(** * llm-mux: registry, model quirks, content coalescer, SSE frames and the
      OAuth start handler

    A shallow embedding of the routing and execution plane of the gateway:

    - [GoStrings]: the functions of Go's [strings] and [fmt] packages the
      sources call, on byte strings;
    - [Registry]: internal/registry/model_families.go;
    - [Executor]: internal/runtime/executor/model_quirks.go;
    - [IR]: internal/translator/ir/content_coalescer.go and the SSE frame
      builders of the translator's pools;
    - [Management]: internal/api/handlers/management/oauth_api.go.

    Go strings are byte strings, embedded as [string] (a list of 8-bit
    characters); [int] and [int64] values are embedded as [Z] (no arithmetic
    is performed on them in the code covered here); a slice is embedded as the
    list of its elements, with its capacity kept where the code tests it. *)

From Stdlib Require Import ZArith Lia Ascii String DecimalString.
From stdpp Require Import base strings list gmap fin_maps.

Open Scope string_scope.
Open Scope list_scope.

(** ** Go's [strings] and [fmt], as far as the sources use them *)

Module GoStrings.

(** Line feed, the byte Go writes for the escape [\n]. *)
Definition LF : ascii := Ascii.ascii_of_nat 10.

(** The double quote byte, which Go source writes with a backslash inside a
    string literal. *)
Definition DQ : ascii := Ascii.ascii_of_nat 34.

(** [s[n:]] for [n <= len(s)]. *)
Fixpoint slice_from (n : nat) (s : string) : string :=
  match n, s with
  | O, _ => s
  | S n', String _ rest => slice_from n' rest
  | S _, EmptyString => EmptyString
  end.

(** [s[:n]]: Go panics when [n > len(s)], hence the option. *)
Fixpoint slice_to (n : nat) (s : string) : option string :=
  match n, s with
  | O, _ => Some EmptyString
  | S n', String c rest => String c <$> slice_to n' rest
  | S _, EmptyString => None
  end.

(** [strings.HasPrefix(s, prefix)]:
    [len(s) >= len(prefix) && s[:len(prefix)] == prefix]. *)
Fixpoint HasPrefix (s prefix : string) {struct prefix} : bool :=
  match prefix, s with
  | EmptyString, _ => true
  | String _ _, EmptyString => false
  | String p prefix', String c s' => Ascii.eqb c p && HasPrefix s' prefix'
  end.

(** [strings.HasSuffix(s, suffix)]:
    [len(s) >= len(suffix) && s[len(s)-len(suffix):] == suffix]. *)
Definition HasSuffix (s suffix : string) : bool :=
  (String.length suffix <=? String.length s)%nat
  && String.eqb (slice_from (String.length s - String.length suffix) s) suffix.

(** [strings.Contains(s, substr)], that is [strings.Index(s, substr) >= 0]:
    some position of [s] starts an occurrence of [substr]. *)
Fixpoint Contains (s substr : string) : bool :=
  HasPrefix s substr
  || match s with
     | EmptyString => false
     | String _ s' => Contains s' substr
     end.

(** The lower-case mapping of one ASCII byte: ['A'..'Z'] move to
    ['a'..'z'], every other byte below 0x80 stays. *)
Definition lower_byte (c : ascii) : ascii :=
  let n := Ascii.nat_of_ascii c in
  if (65 <=? n)%nat && (n <=? 90)%nat then Ascii.ascii_of_nat (n + 32) else c.

(** [strings.ToLower(s)] on ASCII input, where Go lowers byte by byte.
    Strings with bytes from 0x80 on go through Unicode case mapping in Go
    and are outside this embedding. *)
Fixpoint ToLower (s : string) : string :=
  match s with
  | EmptyString => EmptyString
  | String c s' => String (lower_byte c) (ToLower s')
  end.

(** The strings of bytes below 0x80. *)
Definition is_ascii (s : string) : bool :=
  forallb (fun c => (Ascii.nat_of_ascii c <? 128)%nat) (list_ascii_of_string s).

(** [word] occurs in [s] up to the case of ASCII letters: a stretch of [s]
    lowers to [word]. *)
Definition occurs_ignoring_case (word s : string) : Prop :=
  ∃ before mid after, s = before +:+ mid +:+ after ∧ ToLower mid = word.

(** [fmt.Sprintf("%d", n)]: the decimal digits, with a minus sign for a
    negative number. *)
Definition Sprintf_d (n : Z) : string := NilZero.string_of_int (Z.to_int n).

End GoStrings.

(** ** internal/registry/model_families.go *)

Module Registry.

Record FamilyMember : Type := mkFamilyMember
  { Provider : string;   (* provider type *)
    ModelID : string }.  (* provider-specific model id *)

#[global] Instance FamilyMember_eq_dec : EqDecision FamilyMember.
Proof. solve_decision. Defined.

(** The entries of the [ModelFamilies] map literal, in the order the source
    declares them. *)
Definition ModelFamilies_entries : list (string * list FamilyMember) :=
  [ ("claude-sonnet-4-5",
      [ mkFamilyMember "kiro" "claude-sonnet-4-5";
        mkFamilyMember "antigravity" "gemini-claude-sonnet-4-5";
        mkFamilyMember "claude" "claude-sonnet-4-5-20250929" ]);
    ("claude-sonnet-4-5-thinking",
      [ mkFamilyMember "antigravity" "gemini-claude-sonnet-4-5-thinking";
        mkFamilyMember "claude" "claude-sonnet-4-5-thinking" ]);
    ("claude-opus-4-5",
      [ mkFamilyMember "kiro" "claude-opus-4-5-20251101";
        mkFamilyMember "claude" "claude-opus-4-5-20251101" ]);
    ("claude-opus-4-5-thinking",
      [ mkFamilyMember "antigravity" "gemini-claude-opus-4-5-thinking";
        mkFamilyMember "claude" "claude-opus-4-5-thinking" ]);
    ("claude-sonnet-4",
      [ mkFamilyMember "kiro" "claude-sonnet-4-20250514";
        mkFamilyMember "claude" "claude-sonnet-4-20250514" ]);
    ("claude-3-7-sonnet",
      [ mkFamilyMember "kiro" "claude-3-7-sonnet-20250219";
        mkFamilyMember "claude" "claude-3-7-sonnet-20250219" ]);
    ("gemini-2.5-pro",
      [ mkFamilyMember "gemini-cli" "gemini-2.5-pro";
        mkFamilyMember "antigravity" "gemini-2.5-pro";
        mkFamilyMember "aistudio" "gemini-2.5-pro";
        mkFamilyMember "gemini" "gemini-2.5-pro" ]);
    ("gemini-2.5-flash",
      [ mkFamilyMember "gemini-cli" "gemini-2.5-flash";
        mkFamilyMember "antigravity" "gemini-2.5-flash";
        mkFamilyMember "aistudio" "gemini-2.5-flash";
        mkFamilyMember "gemini" "gemini-2.5-flash" ]);
    ("gemini-2.5-flash-lite",
      [ mkFamilyMember "gemini-cli" "gemini-2.5-flash-lite";
        mkFamilyMember "antigravity" "gemini-2.5-flash-lite";
        mkFamilyMember "aistudio" "gemini-2.5-flash-lite";
        mkFamilyMember "gemini" "gemini-2.5-flash-lite" ]);
    ("gemini-3-pro-preview",
      [ mkFamilyMember "gemini-cli" "gemini-3-pro-preview";
        mkFamilyMember "antigravity" "gemini-3-pro-preview";
        mkFamilyMember "aistudio" "gemini-3-pro-preview";
        mkFamilyMember "gemini" "gemini-3-pro-preview" ]);
    ("gpt-5.1-codex-max",
      [ mkFamilyMember "github-copilot" "gpt-5.1-codex-max";
        mkFamilyMember "openai" "gpt-5.1-codex-max" ]) ].

(** [ModelFamilies]: canonical model name to its provider-specific
    variants, a Go [map[string][]FamilyMember]. *)
Definition ModelFamilies : gmap string (list FamilyMember) :=
  list_to_map ModelFamilies_entries.

(** [availableSet[p] = true] for every [p] of [availableProviders]. *)
Definition make_availableSet (availableProviders : list string) : gmap string bool :=
  foldl (fun availableSet p => <[p := true]> availableSet) ∅ availableProviders.

(** The index expression [availableSet[k]] of a [map[string]bool]: the zero
    value [false] for a key that is not in the map. *)
Definition index_bool (availableSet : gmap string bool) (k : string) : bool :=
  default false (availableSet !! k).

(** The loop [for _, member := range family] of [ResolveModelFamily] with the
    return that follows it. *)
Fixpoint resolve_in_family (availableSet : gmap string bool) (canonicalID : string)
    (family : list FamilyMember) : string * string * bool :=
  match family with
  | [] => ("", canonicalID, false)
  | member :: rest =>
      if index_bool availableSet (Provider member)
      then (Provider member, ModelID member, true)
      else resolve_in_family availableSet canonicalID rest
  end.

(** [ResolveModelFamily(canonicalID, availableProviders)]
    = [(provider, modelID, found)]. *)
Definition ResolveModelFamily (canonicalID : string) (availableProviders : list string)
    : string * string * bool :=
  match ModelFamilies !! canonicalID with
  | None => ("", canonicalID, false)
  | Some family =>
      resolve_in_family (make_availableSet availableProviders) canonicalID family
  end.

(** [member] is the first member of [family], at index [i], whose provider
    occurs in [available]. *)
Definition first_available (available : list string) (family : list FamilyMember)
    (i : nat) (member : FamilyMember) : Prop :=
  family !! i = Some member
  ∧ Provider member ∈ available
  ∧ ∀ j earlier, (j < i)%nat → family !! j = Some earlier → Provider earlier ∉ available.

(** The inner loop of [GetCanonicalModelID]: does [members] hold a member
    with this model id? *)
Fixpoint has_model (members : list FamilyMember) (providerModelID : string) : bool :=
  match members with
  | [] => false
  | member :: rest =>
      if String.eqb (ModelID member) providerModelID then true
      else has_model rest providerModelID
  end.

(** [GetCanonicalModelID] over one iteration order of the map. Go leaves the
    order of [for canonical, members := range ModelFamilies] unspecified: it
    visits every entry once, in some order [visited]. *)
Fixpoint GetCanonicalModelID_in (visited : list (string * list FamilyMember))
    (providerModelID : string) : string :=
  match visited with
  | [] => ""
  | (canonical, members) :: rest =>
      if has_model members providerModelID then canonical
      else GetCanonicalModelID_in rest providerModelID
  end.

(** The iteration orders [range ModelFamilies] can take. *)
Definition iteration_order (visited : list (string * list FamilyMember)) : Prop :=
  visited ≡ₚ map_to_list ModelFamilies.

(** [IsCanonicalID(modelID)]. *)
Definition IsCanonicalID (modelID : string) : bool :=
  bool_decide (is_Some (ModelFamilies !! modelID)).

End Registry.

(** ** internal/runtime/executor/model_quirks.go *)

Module Executor.
Import GoStrings.

(** [registry.ThinkingSupport]: its fields are not read by the quirks. *)
Variant ThinkingSupport : Type := thinking_support.

(** [registry.ModelInfo], the three fields model_quirks.go reads. The
    pointer [Thinking] is an option; the two limits are Go [int]s. *)
Record ModelInfo : Type := mkModelInfo
  { Thinking : option ThinkingSupport;
    OutputTokenLimit : Z;
    MaxCompletionTokens : Z }.

(** [isClaudeModel(model)]. *)
Definition isClaudeModel (model : string) : bool :=
  Contains (ToLower model) "claude".

(** [isGeminiModel(model)]. *)
Definition isGeminiModel (model : string) : bool :=
  let lower := ToLower model in
  HasPrefix lower "gemini" || Contains lower "gemini".

(** [hasThinkingSuffix(model)]. *)
Definition hasThinkingSuffix (model : string) : bool :=
  HasSuffix model "-thinking".

Section WithRegistry.

(** [registry.GetGlobalRegistry().GetModelInfo(id)]: the registered
    [*ModelInfo], [nil] ([None]) for an id the registry does not know. The
    registry itself is not among the sources; the quirks only call it. *)
Variable GetModelInfo : string → option ModelInfo.

(** [isThinkingModel(model)]. *)
Definition isThinkingModel (model : string) : bool :=
  match GetModelInfo model with
  | Some info => bool_decide (Thinking info ≠ None)
  | None => false
  end.

(** [getThinkingVariant(model)]. *)
Definition getThinkingVariant (model : string) : string :=
  if hasThinkingSuffix model then model
  else
    let thinkingModel := model +:+ "-thinking" in
    match GetModelInfo thinkingModel with
    | Some _ => thinkingModel
    | None => ""
    end.

(** [getOutputTokenLimit(model)]. *)
Definition getOutputTokenLimit (model : string) : Z :=
  match GetModelInfo model with
  | None => 0
  | Some info =>
      if (0 <? OutputTokenLimit info)%Z then OutputTokenLimit info
      else MaxCompletionTokens info
  end.

End WithRegistry.

End Executor.

(** ** internal/translator/ir: the content coalescer and the SSE builders *)

Module IR.
Import GoStrings.

Section Coalescer.

(** The element type of [parts []any]. *)
Context {any : Type}.

(** Go's nil interface value, the zero value of [any]: what the cells of a
    newly allocated backing array hold. *)
Variable nil_any : any.

(** The capacity the runtime picks when [append] has to reallocate, from
    the old capacity and the length needed. *)
Variable growslice : nat → nat → nat.

(** The backing arrays of the [[]any] slices of the program, by address. A
    slice does not hold its elements: it points into one of these arrays, and
    two slices may point into the same one. *)
Local Abbreviation Memory := (list (list any)).

(** A [[]any] value as Go has it: the backing array it points into and the
    index of its first element there, its length and its capacity. *)
Record SliceHeader : Type := mkSliceHeader
  { sl_array : nat;
    sl_off : nat;
    sl_len : nat;
    sl_cap : nat }.

Record geminiContent : Type := mkContent
  { role : string;
    parts : SliceHeader }.

(** [contents] is held as the list of its elements: its backing array is
    made by the pool's [New] or by [GetContentCoalescer] and no value that
    leaves the coalescer points into it ([Build] copies each content out). *)
Record ContentCoalescer : Type := mkCoalescer
  { contents : list geminiContent;
    lastRole : string }.

(** The backing array of a slice; a nil slice has none. *)
Definition backing (m : Memory) (s : SliceHeader) : list any :=
  default [] (m !! sl_array s).

(** The elements a slice shows in memory [m]. *)
Definition slice_elems (m : Memory) (s : SliceHeader) : list any :=
  take (sl_len s) (drop (sl_off s) (backing m s)).


(** What [contentCoalescerPool.New] builds: no contents, the zero role. *)
Definition newContentCoalescer : ContentCoalescer :=
  {| contents := []; lastRole := "" |}.

(** [PutContentCoalescer(c)]: the coalescer as it goes back to the pool. *)
Definition PutContentCoalescer (c : ContentCoalescer) : ContentCoalescer :=
  {| contents := take 0 (contents c); lastRole := "" |}.

(** [append(s, ps...)] on [[]any]. With room in the backing array of [s]
    the elements of [ps] are written there, behind the elements of [s], and
    every slice that shows those cells shows the new elements from then on;
    without room a new array is allocated, at the next free address, and the
    elements of both are copied over. Either way the elements of [ps] are
    read before anything is written. *)
Definition append_slice (m : Memory) (s ps : SliceHeader) : Memory * SliceHeader :=
  let xs := slice_elems m ps in
  let needed := (sl_len s + sl_len ps)%nat in
  if (needed <=? sl_cap s)%nat then
    (alter (list_inserts (sl_off s + sl_len s) xs) (sl_array s) m,
     {| sl_array := sl_array s; sl_off := sl_off s; sl_len := needed; sl_cap := sl_cap s |})
  else
    let newcap := Nat.max needed (growslice (sl_cap s) needed) in
    (m ++ [slice_elems m s ++ xs ++ replicate (newcap - needed) nil_any],
     {| sl_array := length m; sl_off := 0; sl_len := needed; sl_cap := newcap |}).

(** [c.Emit(role, parts)], on the memory and the coalescer. A new content
    holds the caller's slice itself, not a copy of its elements. *)
Definition Emit (r : string) (ps : SliceHeader) (st : Memory * ContentCoalescer)
    : Memory * ContentCoalescer :=
  let '(m, c) := st in
  if (sl_len ps =? 0)%nat then st
  else if String.eqb r (lastRole c) && (0 <? length (contents c))%nat then
    match last (contents c) with
    | Some g =>
        let '(m', s') := append_slice m (parts g) ps in
        (m', {| contents := <[(length (contents c) - 1)%nat :=
                               {| role := role g; parts := s' |}]> (contents c);
                lastRole := lastRole c |})
    | None => st
    end
  else
    (m, {| contents := contents c ++ [ {| role := r; parts := ps |} ];
           lastRole := r |}).

(** [c.Build()]: one [{"role": .., "parts": ..}] object per content, a pair
    here, holding the content's slice; Go's [nil] result for no contents is
    the empty list. *)
Definition Build (c : ContentCoalescer) : list (string * SliceHeader) :=
  if (length (contents c) =? 0)%nat then []
  else (fun g => (role g, parts g)) <$> contents c.

(** A run of [Emit] calls, first call first. *)
Definition emit_all (calls : list (string * SliceHeader))
    (st : Memory * ContentCoalescer) : Memory * ContentCoalescer :=
  foldl (fun st call => Emit call.1 call.2 st) st calls.


(** The spec's wording, to compare [Emit] and [Build] with: empty parts are
    dropped, and consecutive messages with the same role are merged, their
    parts concatenated in order. *)
Fixpoint merge_same_role (calls : list (string * list any))
    : list (string * list any) :=
  match calls with
  | [] => []
  | (r, ps) :: rest =>
      match merge_same_role rest with
      | (r', ps') :: merged =>
          if String.eqb r r' then (r, ps ++ ps') :: merged
          else (r, ps) :: (r', ps') :: merged
      | [] => [(r, ps)]
      end
  end.




(** The pair [Build] makes of one content. *)
Definition built_of (g : geminiContent) : string * SliceHeader := (role g, parts g).

(** The coalescer's invariant: the running last role is the role of the
    last content. *)
Definition last_role_ok (c : ContentCoalescer) : Prop :=
  ∀ g, last (contents c) = Some g → role g = lastRole c.

(** Neighbours carry different roles, by recursion on the list. *)
Fixpoint adjacent_distinct {B : Type} (l : list (string * B)) : Prop :=
  match l with
  | x :: (y :: _) as rest => x.1 ≠ y.1 ∧ adjacent_distinct rest
  | _ => True
  end.

(** Every content holds at least one part. *)
Definition parts_nonempty (cs : list geminiContent) : Prop :=
  Forall (fun g => (0 < sl_len (parts g))%nat) cs.

(** What a state reached by [Emit] calls satisfies. *)
Definition coalescer_ok (c : ContentCoalescer) : Prop :=
  last_role_ok c ∧ adjacent_distinct (Build c) ∧ parts_nonempty (contents c).

(** [GetContentCoalescer(capacity)], for [pooled] the coalescer
    [contentCoalescerPool.Get()] returns and [cap_contents] the capacity of
    its [contents]: a pooled backing array that is too small is replaced, the
    rest of the coalescer stays. *)
Definition GetContentCoalescer (pooled : ContentCoalescer) (cap_contents : nat)
    (capacity : Z) : ContentCoalescer :=
  if (Z.of_nat cap_contents <? capacity)%Z
  then {| contents := []; lastRole := lastRole pooled |}
  else pooled.

(** The spare capacity of [s], the cells of its backing array from its
    length to its capacity, holds no cell of [t], element or spare. *)
Definition spare_apart (s t : SliceHeader) : bool :=
  negb (sl_array s =? sl_array t)%nat
  || (sl_cap s <=? sl_len s)%nat
  || (sl_off t + sl_cap t <=? sl_off s + sl_len s)%nat
  || (sl_off s + sl_cap s <=? sl_off t)%nat.

Definition apart (s t : SliceHeader) : bool := spare_apart s t && spare_apart t s.

(** No slice of the list has spare capacity that another slice of the list
    reaches into. Slices without spare capacity may overlap freely. *)
Fixpoint separate (l : list SliceHeader) : bool :=
  match l with
  | [] => true
  | s :: rest => forallb (apart s) rest && separate rest
  end.

(** The slices the calls hand over, those of length 0 left out. *)
Definition emitted (calls : list (string * SliceHeader)) : list SliceHeader :=
  filter (fun s => (0 < sl_len s)%nat) calls.*2.

End Coalescer.

(** *** Runs to evaluate the coalescer on *)

(** A growth policy: at least twice the old capacity. *)
Definition sample_growslice (oldcap needed : nat) : nat := Nat.max (2 * oldcap) needed.

(** Two arrays of numbers, the first with two cells to spare at its end. *)
Definition sample_memory : list (list nat) := [[1; 2; 0; 0]; [3; 4]].

(** Five calls: a slice of the first array with spare capacity, then full
    slices of the second array and a slice of length 0. *)
Definition sample_calls : list (string * SliceHeader) :=
  [ ("user", mkSliceHeader 0 0 2 4); ("user", mkSliceHeader 1 0 1 1);
    ("user", mkSliceHeader 0 4 0 0);
    ("model", mkSliceHeader 1 1 1 1); ("model", mkSliceHeader 1 0 2 2) ].

(** An array [x] of three numbers and an array of one. *)
Definition shared_memory : list (list nat) := [[1; 2; 3]; [9]].

(** [x[0:3]] for the user, then [x[0:1]], with [x[1:3]] as its spare
    capacity, and the slice of the other array for the model. *)
Definition shared_calls : list (string * SliceHeader) :=
  [ ("user", mkSliceHeader 0 0 3 3); ("model", mkSliceHeader 0 0 1 3);
    ("model", mkSliceHeader 1 0 1 1) ].

(** A [[]byte] with the capacity of its backing array. *)
Record ByteSlice : Type := mkByteSlice
  { data : list ascii;
    capacity : nat }.

(** The bytes of a Go string. *)
Definition bytes_of (s : string) : list ascii := list_ascii_of_string s.

Section SSE.

(** The capacity the runtime picks when [append] has to reallocate, from
    the old capacity and the length needed. *)
Variable growslice : nat → nat → nat.

(** [append(buf, xs...)]. *)
Definition append_bytes (buf : ByteSlice) (xs : list ascii) : ByteSlice :=
  let needed := (length (data buf) + length xs)%nat in
  {| data := data buf ++ xs;
     capacity := if (needed <=? capacity buf)%nat then capacity buf
                 else growslice (capacity buf) needed |}.

(** [make([]byte, 0, size)]. *)
Definition make_bytes (size : nat) : ByteSlice :=
  {| data := []; capacity := size |}.

(** What [sseChunkPool.New] builds. *)
Definition newSSEChunkBuf : ByteSlice := make_bytes 512.

(** [GetSSEChunkBuf()], for [pooled] the buffer [sseChunkPool.Get()]
    returns (a buffer put back earlier, or [newSSEChunkBuf]), cut to length 0
    by [[:0]]. *)
Definition GetSSEChunkBuf (pooled : ByteSlice) : ByteSlice :=
  {| data := take 0 (data pooled); capacity := capacity pooled |}.

(** [BuildSSEChunk(jsonData)]. *)
Definition BuildSSEChunk (pooled : ByteSlice) (jsonData : list ascii) : ByteSlice :=
  let size := (6 + length jsonData + 2)%nat in
  let buf := GetSSEChunkBuf pooled in
  let buf := if (capacity buf <? size)%nat then make_bytes size else buf in
  let buf := append_bytes buf (bytes_of "data: ") in
  let buf := append_bytes buf jsonData in
  let buf := append_bytes buf [LF; LF] in
  buf.

(** [BuildSSEEvent(eventType, jsonData)]. *)
Definition BuildSSEEvent (pooled : ByteSlice) (eventType : string)
    (jsonData : list ascii) : ByteSlice :=
  let size := (7 + String.length eventType + 7 + length jsonData + 2)%nat in
  let buf := GetSSEChunkBuf pooled in
  let buf := if (capacity buf <? size)%nat then make_bytes size else buf in
  let buf := append_bytes buf (bytes_of "event: ") in
  let buf := append_bytes buf (bytes_of eventType) in
  let buf := append_bytes buf (LF :: bytes_of "data: ") in
  let buf := append_bytes buf jsonData in
  let buf := append_bytes buf [LF; LF] in
  buf.

End SSE.

(** *** The pool of SSE chunk buffers *)

(** [sseChunkPool] as a [sync.Pool] holds the buffers put back and not yet
    taken out again or dropped by the collector. *)

(** [PutSSEChunkBuf(b)]: only a buffer of capacity 512 to 4096 goes back,
    cut to length 0. *)
Definition PutSSEChunkBuf (b : ByteSlice) (pool : list ByteSlice) : list ByteSlice :=
  if (512 <=? capacity b)%nat && (capacity b <=? 4096)%nat
  then pool ++ [ {| data := take 0 (data b); capacity := capacity b |} ]
  else pool.

(** [sseChunkPool.Get()]: some pooled buffer, taken out of the pool, or what
    [New] builds when the pool has none to give. [pick] is the choice the pool
    makes. *)
Definition sseChunkPool_Get (pick : nat) (pool : list ByteSlice)
    : ByteSlice * list ByteSlice :=
  match pool !! pick with
  | Some b => (b, delete pick pool)
  | None => (make_bytes 512, pool)
  end.

(** What happens to the pool: a caller puts a buffer back, a caller takes one
    out, the collector drops one. *)
Variant pool_step : Type :=
| StepPut (b : ByteSlice)
| StepGet (pick : nat)
| StepDrop (pick : nat).

Definition pool_do (pool : list ByteSlice) (step : pool_step) : list ByteSlice :=
  match step with
  | StepPut b => PutSSEChunkBuf b pool
  | StepGet pick => (sseChunkPool_Get pick pool).2
  | StepDrop pick => delete pick pool
  end.

(** The pool after a history of steps, from the empty pool the program
    starts with. *)
Definition pool_after (history : list pool_step) : list ByteSlice :=
  foldl pool_do [] history.

(** A buffer as the pool should hold it. *)
Definition pooled_ok (b : ByteSlice) : Prop :=
  data b = [] ∧ (512 ≤ capacity b ≤ 4096)%nat.

(** *** The pools of [[]any] and [[]string] slices *)

Section SlicePool.

(** The element type, [any] or [string], and its zero value, [nil] or the
    empty string. *)
Context {A : Type} (zero : A).

(** A slice with its backing array, from the slice's first element to its
    capacity: the slice shows the first [len] elements of it. *)
Record Slice : Type := mkSlice
  { array : list A;
    len : nat }.

(** [cap(s)]. *)
Definition cap (s : Slice) : nat := length (array s).

(** The elements a slice shows. *)
Definition elements (s : Slice) : list A := take (len s) (array s).

(** [s[:n]] for [n <= cap(s)]. *)
Definition reslice (n : nat) (s : Slice) : Slice := {| array := array s; len := n |}.

(** [make([]T, 0, n)]. *)
Definition make_slice (n : nat) : Slice := {| array := replicate n zero; len := 0 |}.

(** The loop [for i := range s { s[i] = zero }]. *)
Definition clear_elements (s : Slice) : Slice :=
  {| array := foldl (fun arr i => <[i := zero]> arr) (array s) (seq 0 (len s));
     len := len s |}.

(** [PutAnySlice(s)] and [PutStringSlice(s)]: the slice as it goes into the
    pool. *)
Definition PutSlice (s : Slice) : Slice := reslice 0 (clear_elements s).

(** [GetAnySlice(capHint)] and [GetStringSlice(capHint)], for [pooled] the
    slice the pool's [Get] returns. *)
Definition GetSlice (pooled : Slice) (capHint : Z) : Slice :=
  let s := pooled in
  let s := if (Z.of_nat (cap s) <? capHint)%Z then make_slice (Z.to_nat capHint) else s in
  reslice 0 s.

End SlicePool.

End IR.

(** ** internal/api/handlers/management/oauth_api.go *)

Module Management.
Import GoStrings.

(** A Go result pair [(value, err)]: the value, or the error's message. *)
Inductive result (A : Type) : Type :=
| Ok (a : A)
| Err (msg : string).
Arguments Ok {A} a.
Arguments Err {A} msg.

(** [net/http] status codes. *)
Definition StatusOK : Z := 200.
Definition StatusBadRequest : Z := 400.
Definition StatusInternalServerError : Z := 500.

(** *** The request and the response of [POST /v0/management/oauth/start] *)

Record OAuthStartRequest : Type := mkRequest
  { Provider : string;
    ProjectID : string }.

Record OAuthStartResponse : Type := mkResponse
  { Status : string;
    AuthURL : string;
    State : string;
    ID : string;
    Error : string;
    CodeVerifier : string;
    CodeChallenge : string;
    FlowType : string;
    UserCode : string;
    VerificationURL : string;
    ExpiresIn : Z;
    Interval : Z }.

(** The JSON values a response body holds. *)
Inductive JSON : Type :=
| JString (s : string)
| JNumber (n : Z).

(** A struct field tagged [omitempty]: left out when it holds its zero
    value. *)
Definition omitempty_string (key value : string) : list (string * JSON) :=
  if String.eqb value "" then [] else [(key, JString value)].

Definition omitempty_int (key : string) (value : Z) : list (string * JSON) :=
  if (value =? 0)%Z then [] else [(key, JNumber value)].

(** The JSON object of an [OAuthStartResponse], by its struct tags. *)
Definition json_body (r : OAuthStartResponse) : list (string * JSON) :=
  [("status", JString (Status r))]
  ++ omitempty_string "auth_url" (AuthURL r)
  ++ omitempty_string "state" (State r)
  ++ omitempty_string "id" (ID r)
  ++ omitempty_string "error" (Error r)
  ++ omitempty_string "code_verifier" (CodeVerifier r)
  ++ omitempty_string "code_challenge" (CodeChallenge r)
  ++ omitempty_string "flow_type" (FlowType r)
  ++ omitempty_string "user_code" (UserCode r)
  ++ omitempty_string "verification_url" (VerificationURL r)
  ++ omitempty_int "expires_in" (ExpiresIn r)
  ++ omitempty_int "interval" (Interval r).

(** The member [key] of a JSON object. *)
Fixpoint member (key : string) (object : list (string * JSON)) : option JSON :=
  match object with
  | [] => None
  | (k, v) :: rest => if String.eqb k key then Some v else member key rest
  end.

(** A string or integer member as a client decodes it: a member that is
    left out reads as the zero value. *)
Definition string_member (key : string) (object : list (string * JSON)) : string :=
  match member key object with
  | Some (JString s) => s
  | _ => ""
  end.

Definition int_member (key : string) (object : list (string * JSON)) : Z :=
  match member key object with
  | Some (JNumber n) => n
  | _ => 0%Z
  end.

(** [OAuthStartResponse{Status: "error", Error: msg}]. *)
Definition error_response (msg : string) : OAuthStartResponse :=
  {| Status := "error"; AuthURL := ""; State := ""; ID := ""; Error := msg;
     CodeVerifier := ""; CodeChallenge := ""; FlowType := ""; UserCode := "";
     VerificationURL := ""; ExpiresIn := 0; Interval := 0 |}.

(** The message [OAuthStart] answers a start for iFlow with. *)
Definition iflow_error : string :=
  "iFlow uses cookie-based auth. Use POST /v0/management/iflow-auth-url with {cookie: "
  +:+ String DQ ("..." +:+ String DQ "} instead").

(** *** What the handler calls outside this file *)

(** [qwen.DeviceFlow], the fields the handler reads. *)
Module qwen.
Record DeviceFlow : Type := mkDeviceFlow
  { DeviceCode : string;
    UserCode : string;
    VerificationURI : string;
    VerificationURIComplete : string;
    ExpiresIn : Z;
    Interval : Z;
    CodeVerifier : string }.
End qwen.

(** [copilot.DeviceCodeResponse], the fields the handler reads. *)
Module copilot.
Record DeviceCodeResponse : Type := mkDeviceCodeResponse
  { DeviceCode : string;
    UserCode : string;
    VerificationURI : string;
    ExpiresIn : Z;
    Interval : Z }.
End copilot.

(** The PKCE codes of [claude.GeneratePKCECodes] and
    [codex.GeneratePKCECodes]. *)
Record PKCECodes : Type := mkPKCECodes
  { pkce_CodeVerifier : string;
    pkce_CodeChallenge : string }.

(** An [oauth2.Config], without its endpoint. *)
Record OAuth2Config : Type := mkOAuth2Config
  { ClientID : string;
    ClientSecret : string;
    RedirectURL : string;
    Scopes : list string }.

(** What one run of the handler gets from outside this file: the upstream
    device-authorization answers, the clock, the random source, the
    providers' URL builders and the constants of package [oauth]. *)
Record Env : Type := mkEnv
  { (* qwen.NewQwenAuth(h.cfg).InitiateDeviceFlow(ctx) *)
    InitiateDeviceFlow : result qwen.DeviceFlow;
    (* copilot.NewCopilotAuth(h.cfg).StartDeviceFlow(ctx) *)
    StartDeviceFlow : result copilot.DeviceCodeResponse;
    (* time.Now().UnixNano(), an int64 *)
    UnixNano : Z;
    (* crypto/rand.Read: the bytes it fills a buffer with, by position, or
       its error *)
    rand_Read : result (nat → ascii);
    claude_GeneratePKCECodes : result PKCECodes;
    claude_GenerateAuthURL : string → PKCECodes → result string;
    codex_GeneratePKCECodes : result PKCECodes;
    codex_GenerateAuthURL : string → PKCECodes → result string;
    (* conf.AuthCodeURL(state, oauth2.AccessTypeOffline, prompt=consent) *)
    AuthCodeURL : OAuth2Config → string → string;
    GetCallbackPort : string → Z;
    GeminiClientID : string;
    GeminiClientSecret : string;
    AntigravityClientID : string;
    AntigravityClientSecret : string;
    (* h.managementCallbackURL(path) *)
    managementCallbackURL : string → result string }.

(** *** The OAuth service: the registry of pending flows *)

Variant Mode : Type := ModeWebUI | ModeCLI.

Variant FlowStatus : Type :=
  StatusPending | StatusCompleted | StatusFailed | StatusCancelled | StatusExpired.

Record OAuthRequest : Type := mkOAuthRequest
  { flow_Provider : string;
    flow_Mode : Mode;
    flow_Status : FlowStatus }.

(** A background task the handler starts with [go]. It runs concurrently
    with the handler and is recorded here, not run. *)
Variant Goroutine : Type :=
| pollQwenToken (deviceFlow : qwen.DeviceFlow) (state : string)
| pollCopilotToken (deviceCode : copilot.DeviceCodeResponse) (state : string).

(** The process-wide state the handler works on: the registry of
    [oauthService], the goroutines started and the callback forwarders
    listening. *)
Record St : Type := mkSt
  { registry : gmap string OAuthRequest;
    goroutines : list Goroutine;
    forwarders : list (Z * string * string) }.

(** Modelled from the spec: [oauthService.Registry().Create(state, provider,
    mode)] is not among the sources. The spec has the orchestrator register
    the flow under its state as pending. *)
Definition Registry_Create (state provider : string) (mode : Mode) (st : St) : St :=
  {| registry :=
       <[state := {| flow_Provider := provider; flow_Mode := mode;
                     flow_Status := StatusPending |}]> (registry st);
     goroutines := goroutines st;
     forwarders := forwarders st |}.

(** [go f(..)]. *)
Definition go (task : Goroutine) (st : St) : St :=
  {| registry := registry st;
     goroutines := goroutines st ++ [task];
     forwarders := forwarders st |}.

(** Modelled from the spec: [startCallbackForwarder(port, provider,
    targetURL)] is not among the sources. The spec has it start a loopback
    listener on the provider's port that passes the redirect on to the
    management callback; the handler drops what it returns. *)
Definition startCallbackForwarder (port : Z) (provider targetURL : string) (st : St) : St :=
  {| registry := registry st;
     goroutines := goroutines st;
     forwarders := forwarders st ++ [(port, provider, targetURL)] |}.

(** *** The random state *)

(** One hexadecimal digit, lower case. *)
Definition hex_digit (n : nat) : ascii :=
  if (n <? 10)%nat then Ascii.ascii_of_nat (48 + n) else Ascii.ascii_of_nat (87 + n).

(** Bytes in hexadecimal, two digits each. *)
Fixpoint hex_encode (bs : list ascii) : string :=
  match bs with
  | [] => ""
  | b :: rest =>
      let n := Ascii.nat_of_ascii b in
      String (hex_digit (n / 16)) (String (hex_digit (n mod 16)) (hex_encode rest))
  end.

(** Modelled from the spec: [misc.GenerateRandomState] is not among the
    sources. The spec has the state random, 128 bits and URL-safe: 16 bytes
    of the random source, written in hexadecimal. *)
Definition GenerateRandomState (env : Env) : result string :=
  match rand_Read env with
  | Ok random => Ok (hex_encode (random <$> seq 0 16))
  | Err msg => Err msg
  end.

(** A byte that stands for itself in a URL: a letter, a digit or one of
    [-], [.], [_], [~]. *)
Definition url_safe_byte (c : ascii) : bool :=
  let n := Ascii.nat_of_ascii c in
  ((48 <=? n) && (n <=? 57) || (65 <=? n) && (n <=? 90) || (97 <=? n) && (n <=? 122)
   || (n =? 45) || (n =? 46) || (n =? 95) || (n =? 126))%nat.

Definition url_safe (s : string) : bool :=
  forallb url_safe_byte (list_ascii_of_string s).

(** A random 128-bit, URL-safe state: the rendering of some 16 bytes. *)
Definition is_state_token (s : string) : Prop :=
  ∃ bs : list ascii, length bs = 16%nat ∧ s = hex_encode bs.

(** *** The handler *)

(** What a run of the handler ends in: a response written with
    [c.JSON(code, obj)], or a run-time panic. *)
Inductive Outcome : Type :=
| Responded (st : St) (code : Z) (obj : OAuthStartResponse)
| Panicked (st : St).

(** [c.ShouldBindJSON(&req)] on the decoded body ([None]: not a JSON object
    of this shape). The tag [binding:"required"] refuses an empty provider. *)
Definition ShouldBindJSON (body : option OAuthStartRequest) : result OAuthStartRequest :=
  match body with
  | None => Err "invalid request"
  | Some req =>
      if String.eqb (Provider req) "" then Err "Provider is required" else Ok req
  end.

(** A [case] of a [switch] over strings. *)
Definition case_of (s : string) (labels : list string) : bool :=
  existsb (String.eqb s) labels.

(** The first [switch] of [OAuthStart]: the provider name, normalized. *)
Definition normalize_provider (provider : string) : string :=
  if case_of provider ["claude"; "anthropic"] then "claude"
  else if case_of provider ["gemini"; "gemini-cli"] then "gemini"
  else if case_of provider ["copilot"; "github-copilot"] then "copilot"
  else provider.

(** [startQwenDeviceFlow]. *)
Definition startQwenDeviceFlow (env : Env) (st : St) : Outcome :=
  match InitiateDeviceFlow env with
  | Err err =>
      Responded st StatusInternalServerError
        (error_response ("Failed to initiate device flow: " +:+ err))
  | Ok deviceFlow =>
      let state := "qwen-" +:+ Sprintf_d (UnixNano env) in
      let st := Registry_Create state "qwen" ModeWebUI st in
      let st := go (pollQwenToken deviceFlow state) st in
      Responded st StatusOK
        {| Status := "ok"; FlowType := "device"; State := state; ID := state;
           UserCode := qwen.UserCode deviceFlow;
           AuthURL := qwen.VerificationURIComplete deviceFlow;
           VerificationURL := qwen.VerificationURI deviceFlow;
           ExpiresIn := qwen.ExpiresIn deviceFlow;
           Interval := qwen.Interval deviceFlow;
           Error := ""; CodeVerifier := ""; CodeChallenge := "" |}
  end.

(** [startCopilotDeviceFlow]. The slice [deviceCode.DeviceCode[:8]] panics
    on a device code of fewer than 8 bytes. *)
Definition startCopilotDeviceFlow (env : Env) (st : St) : Outcome :=
  match StartDeviceFlow env with
  | Err err =>
      Responded st StatusInternalServerError
        (error_response ("Failed to start device flow: " +:+ err))
  | Ok deviceCode =>
      match slice_to 8 (copilot.DeviceCode deviceCode) with
      | None => Panicked st
      | Some head =>
          let state := "copilot-" +:+ head in
          let st := Registry_Create state "copilot" ModeWebUI st in
          let st := go (pollCopilotToken deviceCode state) st in
          Responded st StatusOK
            {| Status := "ok"; FlowType := "device"; State := state; ID := state;
               UserCode := copilot.UserCode deviceCode;
               AuthURL := copilot.VerificationURI deviceCode;
               VerificationURL := copilot.VerificationURI deviceCode;
               ExpiresIn := copilot.ExpiresIn deviceCode;
               Interval := copilot.Interval deviceCode;
               Error := ""; CodeVerifier := ""; CodeChallenge := "" |}
      end
  end.

(** [buildClaudeAuthURL(state)] = [(authURL, state, codeVerifier, err)]. *)
Definition buildClaudeAuthURL (env : Env) (state : string)
    : result (string * string * string) :=
  match claude_GeneratePKCECodes env with
  | Err err => Err ("failed to generate PKCE codes: " +:+ err)
  | Ok pkceCodes =>
      match claude_GenerateAuthURL env state pkceCodes with
      | Err err => Err ("failed to generate auth URL: " +:+ err)
      | Ok authURL => Ok (authURL, state, pkce_CodeVerifier pkceCodes)
      end
  end.

(** [buildCodexAuthURL(state)]. *)
Definition buildCodexAuthURL (env : Env) (state : string)
    : result (string * string * string) :=
  match codex_GeneratePKCECodes env with
  | Err err => Err ("failed to generate PKCE codes: " +:+ err)
  | Ok pkceCodes =>
      match codex_GenerateAuthURL env state pkceCodes with
      | Err err => Err ("failed to generate auth URL: " +:+ err)
      | Ok authURL => Ok (authURL, state, pkce_CodeVerifier pkceCodes)
      end
  end.

(** [buildGeminiAuthURL(state)]. *)
Definition buildGeminiAuthURL (env : Env) (state : string)
    : result (string * string * string) :=
  let redirectURI :=
    "http://localhost:" +:+ Sprintf_d (GetCallbackPort env "gemini") +:+ "/oauth2callback" in
  let conf :=
    {| ClientID := GeminiClientID env;
       ClientSecret := GeminiClientSecret env;
       RedirectURL := redirectURI;
       Scopes := ["openid"; "https://www.googleapis.com/auth/userinfo.email";
                  "https://www.googleapis.com/auth/cloud-platform"] |} in
  Ok (AuthCodeURL env conf state, state, "").

(** [buildAntigravityAuthURL(state)]. *)
Definition buildAntigravityAuthURL (env : Env) (state : string)
    : result (string * string * string) :=
  let redirectURI :=
    "http://localhost:" +:+ Sprintf_d (GetCallbackPort env "antigravity") +:+ "/oauth-callback" in
  let conf :=
    {| ClientID := AntigravityClientID env;
       ClientSecret := AntigravityClientSecret env;
       RedirectURL := redirectURI;
       Scopes := ["openid"; "https://www.googleapis.com/auth/userinfo.email"] |} in
  Ok (AuthCodeURL env conf state, state, "").

(** [buildProviderAuthURL(provider, projectID)]. *)
Definition buildProviderAuthURL (env : Env) (provider projectID : string)
    : result (string * string * string) :=
  match GenerateRandomState env with
  | Err err => Err ("failed to generate state: " +:+ err)
  | Ok state =>
      if case_of provider ["claude"; "anthropic"] then buildClaudeAuthURL env state
      else if case_of provider ["codex"] then buildCodexAuthURL env state
      else if case_of provider ["gemini"; "gemini-cli"] then buildGeminiAuthURL env state
      else if case_of provider ["antigravity"] then buildAntigravityAuthURL env state
      else Err ("unsupported OAuth provider: " +:+ provider
                +:+ ". Use device flow for qwen/copilot, or cookie auth for iflow")
  end.

(** [OAuthStart]: [POST /v0/management/oauth/start]. *)
Definition OAuthStart (env : Env) (st : St) (body : option OAuthStartRequest) : Outcome :=
  match ShouldBindJSON body with
  | Err _ =>
      Responded st StatusBadRequest
        (error_response "Invalid request body: provider is required")
  | Ok req =>
      let provider := normalize_provider (Provider req) in
      if case_of provider ["qwen"] then startQwenDeviceFlow env st
      else if case_of provider ["copilot"] then startCopilotDeviceFlow env st
      else if case_of provider ["iflow"] then
        Responded st StatusBadRequest (error_response iflow_error)
      else
        match buildProviderAuthURL env provider (ProjectID req) with
        | Err err => Responded st StatusBadRequest (error_response err)
        | Ok (authURL, state, codeVerifier) =>
            let st := Registry_Create state provider ModeWebUI st in
            let st :=
              match managementCallbackURL env ("/" +:+ provider +:+ "/callback") with
              | Ok targetURL =>
                  let port := GetCallbackPort env provider in
                  if (0 <? port)%Z then startCallbackForwarder port provider targetURL st
                  else st
              | Err _ => st
              end in
            Responded st StatusOK
              {| Status := "ok"; FlowType := "oauth"; AuthURL := authURL;
                 State := state; ID := state; CodeVerifier := codeVerifier;
                 Error := ""; CodeChallenge := ""; UserCode := "";
                 VerificationURL := ""; ExpiresIn := 0; Interval := 0 |}
        end
  end.

(** The registry after a run, whatever its outcome. *)
Definition registry_after (o : Outcome) : gmap string OAuthRequest :=
  match o with
  | Responded st _ _ => registry st
  | Panicked st => registry st
  end.

(** The entry [Create] stores: a pending Web-UI mode flow of the provider. *)
Definition pending_flow (provider : string) : OAuthRequest :=
  {| flow_Provider := provider; flow_Mode := ModeWebUI; flow_Status := StatusPending |}.

(** The providers whose flow is a browser redirect, as [buildProviderAuthURL]
    accepts them after normalization. *)
Definition web_provider (provider : string) : bool :=
  case_of provider ["claude"; "codex"; "gemini"; "antigravity"].

(** *** A run to evaluate the handler on *)

Definition sample_qwen_flow : qwen.DeviceFlow :=
  {| qwen.DeviceCode := "0f3a9c2e7b51d844a6c0";
     qwen.UserCode := "ABCD-EFGH";
     qwen.VerificationURI := "https://chat.qwen.ai/authorize";
     qwen.VerificationURIComplete := "https://chat.qwen.ai/authorize?user_code=ABCD-EFGH";
     qwen.ExpiresIn := 900;
     qwen.Interval := 5;
     qwen.CodeVerifier := "verifier" |}.

Definition sample_copilot_code : copilot.DeviceCodeResponse :=
  {| copilot.DeviceCode := "3584d83530557fdd1f46af8289938c8ef79f9dc5";
     copilot.UserCode := "WDJB-MJHT";
     copilot.VerificationURI := "https://github.com/login/device";
     copilot.ExpiresIn := 900;
     copilot.Interval := 5 |}.

Definition sample_env : Env :=
  {| InitiateDeviceFlow := Ok sample_qwen_flow;
     StartDeviceFlow := Ok sample_copilot_code;
     UnixNano := 1700000000000000000%Z;
     rand_Read := Ok (fun i => Ascii.ascii_of_nat (17 * i)%nat);
     claude_GeneratePKCECodes := Ok (mkPKCECodes "verifier" "challenge");
     claude_GenerateAuthURL := fun state _ =>
       Ok ("https://claude.ai/oauth/authorize?state=" +:+ state);
     codex_GeneratePKCECodes := Ok (mkPKCECodes "verifier" "challenge");
     codex_GenerateAuthURL := fun state _ =>
       Ok ("https://auth.openai.com/oauth/authorize?state=" +:+ state);
     AuthCodeURL := fun conf state =>
       "https://accounts.google.com/o/oauth2/auth?redirect_uri=" +:+ RedirectURL conf
       +:+ "&state=" +:+ state;
     GetCallbackPort := fun _ => 8085%Z;
     GeminiClientID := "gemini-client";
     GeminiClientSecret := "gemini-secret";
     AntigravityClientID := "antigravity-client";
     AntigravityClientSecret := "antigravity-secret";
     managementCallbackURL := fun path => Ok ("http://127.0.0.1:8318/v0/management" +:+ path) |}.

(** No flow pending, nothing running. *)
Definition idle : St := {| registry := ∅; goroutines := []; forwarders := [] |}.

(** *** The polling goroutines *)

(** [qwen.QwenTokenData], what [PollForToken] returns: the pollers pass it
    on and never look inside. *)
Variant QwenTokenData : Type := qwenTokenData (token : string).

(** [qwen.QwenTokenStorage]: the token data it was created from and the
    [Email] field the poller sets. *)
Record QwenTokenStorage : Type := mkQwenTokenStorage
  { storage_data : QwenTokenData;
    storage_Email : string }.

(** [copilot.Credentials], the fields the poller reads. *)
Record Credentials : Type := mkCredentials
  { AccessToken : string;
    TokenType : string;
    Scope : string;
    Username : string }.

(** [coreauth.Auth], the fields the pollers fill. *)
Record AuthRecord : Type := mkAuthRecord
  { auth_ID : string;
    auth_Provider : string;
    auth_FileName : string;
    auth_Label : string;
    auth_Storage : option QwenTokenStorage;
    auth_Metadata : list (string * JSON) }.

(** What one run of a poller gets from outside this file. *)
Record PollEnv : Type := mkPollEnv
  { (* qwenAuth.PollForToken(deviceCode, codeVerifier) *)
    PollForToken : string → string → result QwenTokenData;
    (* qwenAuth.CreateTokenStorage(tokenData) *)
    CreateTokenStorage : QwenTokenData → QwenTokenStorage;
    (* copilotAuth.WaitForAuthorization(ctx, deviceCode) *)
    WaitForAuthorization : copilot.DeviceCodeResponse → result Credentials;
    (* copilotAuth.GetCopilotAPIToken(ctx, accessToken) *)
    GetCopilotAPIToken : string → result string;
    (* ctx.Err() != nil, when the poller looks after a failure *)
    ctx_Err : bool;
    (* time.Now().UnixMilli() *)
    UnixMilli : Z;
    (* h.saveTokenRecord(ctx, record): the path saved to *)
    saveTokenRecord : AuthRecord → result string }.

(** What a poller does to the rest of the program, in the order it does it:
    its calls on the registry of [oauthService], the token records it hands
    to [saveTokenRecord], and the release of its context. Logging is left
    out. *)
Variant PollEvent : Type :=
| RegistryCancel (state : string)
| RegistryFail (state msg : string)
| RegistryComplete (state result_State result_Code : string)
| SaveToken (record : AuthRecord)
| ContextCancel.

(** The record [pollQwenToken] saves for a token. *)
Definition qwen_record (penv : PollEnv) (tokenData : QwenTokenData) : AuthRecord :=
  let tokenStorage := CreateTokenStorage penv tokenData in
  let email := "qwen-" +:+ Sprintf_d (UnixMilli penv) in
  let tokenStorage :=
    {| storage_data := storage_data tokenStorage; storage_Email := email |} in
  {| auth_ID := "qwen-" +:+ storage_Email tokenStorage +:+ ".json";
     auth_Provider := "qwen";
     auth_FileName := "qwen-" +:+ storage_Email tokenStorage +:+ ".json";
     auth_Label := "";
     auth_Storage := Some tokenStorage;
     auth_Metadata := [("email", JString (storage_Email tokenStorage))] |}.

(** [pollQwenToken(ctx, cancel, qwenAuth, deviceFlow, state)]; the deferred
    [cancel()] runs last. *)
Definition run_pollQwenToken (penv : PollEnv) (deviceFlow : qwen.DeviceFlow)
    (state : string) : list PollEvent :=
  match PollForToken penv (qwen.DeviceCode deviceFlow) (qwen.CodeVerifier deviceFlow) with
  | Err err =>
      if ctx_Err penv then [RegistryCancel state]
      else [RegistryFail state ("Authentication failed: " +:+ err)]
  | Ok tokenData =>
      let record := qwen_record penv tokenData in
      SaveToken record ::
      match saveTokenRecord penv record with
      | Err errSave => [RegistryFail state ("Failed to save tokens: " +:+ errSave)]
      | Ok savedPath => [RegistryComplete state state "success"]
      end
  end ++ [ContextCancel].

(** The record [pollCopilotToken] saves for credentials. *)
Definition copilot_record (penv : PollEnv) (creds : Credentials) : AuthRecord :=
  let metadata :=
    [ ("type", JString "github-copilot");
      ("access_token", JString (AccessToken creds));
      ("token_type", JString (TokenType creds));
      ("scope", JString (Scope creds));
      ("username", JString (Username creds));
      ("timestamp", JNumber (UnixMilli penv)) ] in
  let fileName := "github-copilot-" +:+ Username creds +:+ ".json" in
  {| auth_ID := fileName;
     auth_Provider := "github-copilot";
     auth_FileName := fileName;
     auth_Label := Username creds;
     auth_Storage := None;
     auth_Metadata := metadata |}.

(** [pollCopilotToken(ctx, cancel, copilotAuth, deviceCode, state)]. *)
Definition run_pollCopilotToken (penv : PollEnv) (deviceCode : copilot.DeviceCodeResponse)
    (state : string) : list PollEvent :=
  match WaitForAuthorization penv deviceCode with
  | Err err =>
      if ctx_Err penv then [RegistryCancel state]
      else [RegistryFail state ("Authentication failed: " +:+ err)]
  | Ok creds =>
      match GetCopilotAPIToken penv (AccessToken creds) with
      | Err err => [RegistryFail state ("Failed to verify Copilot access: " +:+ err)]
      | Ok _ =>
          let record := copilot_record penv creds in
          SaveToken record ::
          match saveTokenRecord penv record with
          | Err errSave => [RegistryFail state ("Failed to save tokens: " +:+ errSave)]
          | Ok savedPath => [RegistryComplete state state "success"]
          end
      end
  end ++ [ContextCancel].

(** A goroutine the handler started, run. *)
Definition run_goroutine (penv : PollEnv) (g : Goroutine) : list PollEvent :=
  match g with
  | pollQwenToken deviceFlow state => run_pollQwenToken penv deviceFlow state
  | pollCopilotToken deviceCode state => run_pollCopilotToken penv deviceCode state
  end.

(** The state a goroutine polls for. *)
Definition goroutine_state (g : Goroutine) : string :=
  match g with
  | pollQwenToken _ state => state
  | pollCopilotToken _ state => state
  end.

(** The state a registry call is about, if the event is one. *)
Definition registry_call_state (e : PollEvent) : option string :=
  match e with
  | RegistryCancel state => Some state
  | RegistryFail state _ => Some state
  | RegistryComplete state _ _ => Some state
  | SaveToken _ => None
  | ContextCancel => None
  end.

(** The states of the registry calls of a run, in order. *)
Definition registry_calls (events : list PollEvent) : list string :=
  omap registry_call_state events.

(** The provider names the two switches of [OAuthStart] and the switch of
    [buildProviderAuthURL] have a case for. *)
Definition known_providers : list string :=
  [ "claude"; "anthropic"; "gemini"; "gemini-cli"; "copilot"; "github-copilot";
    "qwen"; "iflow"; "codex"; "antigravity" ].

(** A run of the pollers to evaluate them on. *)
Definition sample_poll_env : PollEnv :=
  {| PollForToken := fun _ _ => Ok (qwenTokenData "token");
     CreateTokenStorage := fun tokenData => mkQwenTokenStorage tokenData "";
     WaitForAuthorization := fun _ => Ok (mkCredentials "gho_token" "bearer" "read:user" "octocat");
     GetCopilotAPIToken := fun _ => Ok "copilot-api-token";
     ctx_Err := false;
     UnixMilli := 1700000000000%Z;
     saveTokenRecord := fun record => Ok ("/auths/" +:+ auth_FileName record) |}.

(** The sample run with the upstreams and the random source failing. *)
Definition sample_env_down : Env :=
  {| InitiateDeviceFlow := Err "connection refused";
     StartDeviceFlow := Err "connection refused";
     UnixNano := UnixNano sample_env;
     rand_Read := Err "entropy unavailable";
     claude_GeneratePKCECodes := claude_GeneratePKCECodes sample_env;
     claude_GenerateAuthURL := claude_GenerateAuthURL sample_env;
     codex_GeneratePKCECodes := codex_GeneratePKCECodes sample_env;
     codex_GenerateAuthURL := codex_GenerateAuthURL sample_env;
     AuthCodeURL := AuthCodeURL sample_env;
     GetCallbackPort := GetCallbackPort sample_env;
     GeminiClientID := GeminiClientID sample_env;
     GeminiClientSecret := GeminiClientSecret sample_env;
     AntigravityClientID := AntigravityClientID sample_env;
     AntigravityClientSecret := AntigravityClientSecret sample_env;
     managementCallbackURL := managementCallbackURL sample_env |}.

End Management.

(** * Properties *)

(** ** Byte strings *)

Module GoStringsFacts.
Import GoStrings.

Lemma app_cons (c : ascii) (s t : string) : String c s +:+ t = String c (s +:+ t).
Proof. reflexivity. Qed.

Lemma app_nil (t : string) : "" +:+ t = t.
Proof. reflexivity. Qed.

Lemma string_length_app (s t : string) :
  String.length (s +:+ t) = (String.length s + String.length t)%nat.
Proof. induction s as [|c s IH]; simpl; [done | by rewrite IH]. Qed.

Lemma slice_from_app (s t : string) : slice_from (String.length s) (s +:+ t) = t.
Proof. induction s as [|c s IH]; simpl; [by destruct t | done]. Qed.

Lemma slice_from_split (n : nat) (s : string) :
  (n ≤ String.length s)%nat →
  ∃ stem, s = stem +:+ slice_from n s ∧ String.length stem = n.
Proof.
  revert s. induction n as [|n IH]; intros s Hn.
  - exists "". by destruct s.
  - destruct s as [|c s]; simpl in *; [lia |].
    destruct (IH s) as (stem & Hs & Hl); [lia |].
    exists (String c stem). rewrite app_cons. simpl. by rewrite <- Hs, Hl.
Qed.

(** [strings.HasSuffix] holds exactly of the strings that end with the
    suffix. *)
Lemma HasSuffix_ends_with (s suffix : string) :
  HasSuffix s suffix = true ↔ ∃ stem, s = stem +:+ suffix.
Proof.
  unfold HasSuffix. rewrite andb_true_iff, Nat.leb_le, String.eqb_eq. split.
  - intros [Hlen Heq].
    destruct (slice_from_split (String.length s - String.length suffix) s)
      as (stem & Hs & _); [lia |].
    exists stem. congruence.
  - intros [stem ->]. rewrite string_length_app. split; [lia |].
    replace (String.length stem + String.length suffix - String.length suffix)%nat
      with (String.length stem) by lia.
    apply slice_from_app.
Qed.

Lemma HasPrefix_starts_with (s prefix : string) :
  HasPrefix s prefix = true ↔ ∃ rest, s = prefix +:+ rest.
Proof.
  revert s. induction prefix as [|p prefix IH]; intros s; simpl.
  - split; [intros _; exists s; reflexivity | done].
  - destruct s as [|c s].
    + split; [done | intros [rest H]; rewrite app_cons in H; discriminate].
    + rewrite andb_true_iff, Ascii.eqb_eq, IH. split.
      * intros [-> [rest ->]]. exists rest. reflexivity.
      * intros [rest H]. rewrite app_cons in H. injection H as -> ->.
        split; [done | by exists rest].
Qed.

(** A string that starts with [substr] contains it: the first disjunct of
    [isGeminiModel] adds nothing to the second. *)
Lemma HasPrefix_Contains (s substr : string) :
  HasPrefix s substr = true → Contains s substr = true.
Proof. intros H. destruct s; simpl in *; by rewrite H. Qed.

(** [strings.Contains] holds exactly of the strings with an occurrence of
    [substr]. *)
Lemma Contains_occurs (s substr : string) :
  Contains s substr = true ↔ ∃ before after, s = before +:+ substr +:+ after.
Proof.
  induction s as [|c s IH].
  - simpl. rewrite orb_false_r, HasPrefix_starts_with. split.
    + intros [rest ->]. exists "", rest. reflexivity.
    + intros ([|b before] & after & H).
      * exists after. exact H.
      * rewrite app_cons in H. discriminate.
  - cbn [Contains]. rewrite orb_true_iff, IH, HasPrefix_starts_with. split.
    + intros [[rest ->] | (before & after & ->)].
      * exists "", rest. reflexivity.
      * exists (String c before), after. reflexivity.
    + intros ([|b before] & after & H).
      * left. exists after. exact H.
      * right. rewrite app_cons in H. injection H as -> ->. by exists before, after.
Qed.

Lemma ToLower_app (s t : string) : ToLower (s +:+ t) = ToLower s +:+ ToLower t.
Proof.
  induction s as [|c s IH]; [reflexivity |].
  rewrite app_cons. simpl. by rewrite IH, app_cons.
Qed.

Lemma ToLower_split (s x y : string) :
  ToLower s = x +:+ y → ∃ a b, s = a +:+ b ∧ ToLower a = x ∧ ToLower b = y.
Proof.
  revert s. induction x as [|c x IH]; intros s H.
  - exists "", s. by rewrite app_nil in *.
  - destruct s as [|d s]; [discriminate |].
    rewrite app_cons in H. simpl in H. injection H as Hc Hs.
    destruct (IH s Hs) as (a & b & -> & Ha & Hb).
    exists (String d a), b. rewrite app_cons. simpl. by rewrite Hc, Ha.
Qed.

(** Lowering the string and searching it is a search up to case. *)
Lemma Contains_ToLower (s word : string) :
  Contains (ToLower s) word = true ↔ occurs_ignoring_case word s.
Proof.
  rewrite Contains_occurs. unfold occurs_ignoring_case. split.
  - intros (before' & after' & H).
    apply ToLower_split in H as (before & rest & -> & _ & H).
    apply ToLower_split in H as (mid & after & -> & Hmid & _).
    by exists before, mid, after.
  - intros (before & mid & after & -> & <-).
    exists (ToLower before), (ToLower after). by rewrite !ToLower_app.
Qed.

Lemma app_assoc (s t u : string) : (s +:+ t) +:+ u = s +:+ (t +:+ u).
Proof. induction s as [|c s IH]; [done |]. by rewrite !app_cons, IH. Qed.

(** An occurrence up to case stays one when text follows the string. *)
Lemma occurs_ignoring_case_app (word s t : string) :
  occurs_ignoring_case word s → occurs_ignoring_case word (s +:+ t).
Proof.
  intros (before & mid & after & -> & Hmid).
  exists before, mid, (after +:+ t). split; [| done]. by rewrite !app_assoc.
Qed.

(** [s[:n]] panics exactly on a string shorter than [n]. *)
Lemma slice_to_None (n : nat) (s : string) :
  slice_to n s = None ↔ (String.length s < n)%nat.
Proof.
  revert s. induction n as [|n IH]; intros s; simpl.
  - split; [done | lia].
  - destruct s as [|c s]; simpl; [split; [lia | done] |].
    specialize (IH s). destruct (slice_to n s); simpl in *.
    + split; [done |]. intros Hlt. assert (String.length s < n)%nat as Hs by lia.
      apply IH in Hs. done.
    + split; [| done]. intros _.
      assert (String.length s < n)%nat by (by apply IH). lia.
Qed.

Lemma app_not_empty (c : ascii) (s t : string) : String c s +:+ t ≠ "".
Proof. by rewrite app_cons. Qed.

(** A prefix found in [s] followed by text that starts with a byte the prefix
    does not hold lies in [s]. *)
Lemma HasPrefix_before (d : ascii) (s suf w : string) :
  forallb (fun p => negb (Ascii.eqb d p)) (list_ascii_of_string w) = true →
  HasPrefix (s +:+ String d suf) w = true → HasPrefix s w = true.
Proof.
  revert s. induction w as [|p w IH]; intros s Hd H; [by destruct s |].
  simpl in Hd. apply andb_true_iff in Hd as [Hp Hw].
  destruct s as [|c s].
  - rewrite app_nil in H. simpl in H. apply andb_true_iff in H as [H _].
    rewrite H in Hp. discriminate.
  - rewrite app_cons in H. simpl in H |- *. apply andb_true_iff in H as [Hc H].
    rewrite Hc. simpl. by apply IH.
Qed.

(** So is an occurrence, when the text that follows holds none itself. *)
Lemma Contains_before (d : ascii) (s suf w : string) :
  forallb (fun p => negb (Ascii.eqb d p)) (list_ascii_of_string w) = true →
  Contains (String d suf) w = false →
  Contains (s +:+ String d suf) w = true → Contains s w = true.
Proof.
  intros Hd Hsuf. induction s as [|c s IH]; intros H.
  - rewrite app_nil in H. congruence.
  - rewrite app_cons in H. cbn [Contains] in H |- *.
    apply orb_true_iff in H as [H | H]; apply orb_true_iff.
    + left. rewrite <- app_cons in H. by apply (HasPrefix_before d _ suf).
    + right. by apply IH.
Qed.

(** An occurrence stays one when text follows the string. *)
Lemma Contains_app (s t w : string) :
  Contains s w = true → Contains (s +:+ t) w = true.
Proof.
  rewrite !Contains_occurs. intros (before & after & ->).
  exists before, (after +:+ t). by rewrite !app_assoc.
Qed.

End GoStringsFacts.

(** ** The model family table *)

Module RegistryFacts.
Import Registry.

Lemma index_bool_insert (availableSet : gmap string bool) (p k : string) :
  index_bool (<[p := true]> availableSet) k = true
  ↔ k = p ∨ index_bool availableSet k = true.
Proof.
  unfold index_bool. destruct (decide (p = k)) as [-> | Hne].
  - rewrite lookup_insert_eq. simpl. tauto.
  - rewrite lookup_insert_ne by done. split; [tauto | intros [-> | H]; done].
Qed.

Lemma foldl_availableSet (acc : gmap string bool) (available : list string) (k : string) :
  index_bool (foldl (fun availableSet p => <[p := true]> availableSet) acc available) k = true
  ↔ k ∈ available ∨ index_bool acc k = true.
Proof.
  revert acc. induction available as [|p available IH]; intros acc; simpl.
  - rewrite elem_of_nil. tauto.
  - rewrite IH, index_bool_insert, elem_of_cons. tauto.
Qed.

(** The set built from [availableProviders] answers [true] exactly on the
    providers of the list. *)
Lemma availableSet_member (available : list string) (k : string) :
  index_bool (make_availableSet available) k = true ↔ k ∈ available.
Proof.
  unfold make_availableSet. rewrite foldl_availableSet.
  split; [intros [Hin | Hempty]; [done |] | tauto].
  unfold index_bool in Hempty. rewrite lookup_empty in Hempty. done.
Qed.

Lemma availableSet_not_member (available : list string) (k : string) :
  index_bool (make_availableSet available) k = false ↔ k ∉ available.
Proof. rewrite <- availableSet_member. by destruct (index_bool _ _). Qed.

(** The loop returns the first member whose provider is available, or the
    fallback when no member's provider is. *)
Lemma resolve_in_family_first (available : list string) (canonicalID : string)
    (family : list FamilyMember) :
  (∃ i member, first_available available family i member
     ∧ resolve_in_family (make_availableSet available) canonicalID family
       = (Provider member, ModelID member, true))
  ∨ ((∀ member, member ∈ family → Provider member ∉ available)
     ∧ resolve_in_family (make_availableSet available) canonicalID family
       = ("", canonicalID, false)).
Proof.
  induction family as [|m family IH]; simpl.
  - right. split; [intros member Hin; by apply elem_of_nil in Hin | done].
  - destruct (index_bool (make_availableSet available) (Provider m)) eqn:Hm.
    + left. exists 0%nat, m. repeat split; [by apply availableSet_member | lia].
    + apply availableSet_not_member in Hm.
      destruct IH as [(i & member & (Hi & Hp & Hfirst) & Hres) | [Hnone Hres]].
      * left. exists (S i), member. repeat split; [done | done | | done].
        intros [|j] earlier Hj Hearlier; simpl in Hearlier.
        -- by injection Hearlier as <-.
        -- apply (Hfirst j); [lia | done].
      * right. split; [| done].
        intros member [-> | Hin]%elem_of_cons; [done | by apply Hnone].
Qed.

(** The keys of the map literal are pairwise distinct, as Go requires of a
    map literal with constant keys. *)
Lemma ModelFamilies_entries_NoDup : NoDup ModelFamilies_entries.*1.
Proof. apply (bool_decide_unpack _). vm_compute. exact I. Qed.

Lemma ModelFamilies_lookup (C : string) (members : list FamilyMember) :
  ModelFamilies !! C = Some members ↔ (C, members) ∈ ModelFamilies_entries.
Proof.
  unfold ModelFamilies. symmetry.
  apply elem_of_list_to_map, ModelFamilies_entries_NoDup.
Qed.

Lemma entries_iteration_order : iteration_order ModelFamilies_entries.
Proof.
  unfold iteration_order, ModelFamilies. symmetry.
  apply map_to_list_to_map, ModelFamilies_entries_NoDup.
Qed.

Lemma iteration_order_lookup (visited : list (string * list FamilyMember))
    (C : string) (members : list FamilyMember) :
  iteration_order visited →
  (C, members) ∈ visited ↔ ModelFamilies !! C = Some members.
Proof.
  unfold iteration_order. intros Hv. rewrite Hv. apply elem_of_map_to_list.
Qed.

Lemma has_model_member (members : list FamilyMember) (m : string) :
  has_model members m = true ↔ ∃ member, member ∈ members ∧ ModelID member = m.
Proof.
  induction members as [|x members IH]; simpl.
  - split; [done | intros (member & Hin & _); by apply elem_of_nil in Hin].
  - destruct (String.eqb (ModelID x) m) eqn:Hx.
    + apply String.eqb_eq in Hx. split; [| done].
      intros _. exists x. split; [left | done].
    + apply String.eqb_neq in Hx. rewrite IH. split.
      * intros (member & Hin & Hm). exists member. split; [by right | done].
      * intros (member & [-> | Hin]%elem_of_cons & Hm); [done |]. by exists member.
Qed.

(** What the scan over one iteration order returns: the key of a visited
    entry that holds the id, or the empty string when no visited entry
    does. *)
Lemma GetCanonicalModelID_in_scan (visited : list (string * list FamilyMember))
    (m : string) :
  (∃ members, (GetCanonicalModelID_in visited m, members) ∈ visited
     ∧ has_model members m = true)
  ∨ (GetCanonicalModelID_in visited m = ""
     ∧ ∀ C members, (C, members) ∈ visited → has_model members m = false).
Proof.
  induction visited as [|[canonical members] visited IH]; simpl.
  - right. split; [done | intros C members Hin; by apply elem_of_nil in Hin].
  - destruct (has_model members m) eqn:Hhas.
    + left. exists members. split; [left | done].
    + destruct IH as [(ms & Hin & Hms) | [Hres Hnone]].
      * left. exists ms. split; [by right | done].
      * right. split; [done |].
        intros C ms [[= -> ->] | Hin]%elem_of_cons; [done | by apply (Hnone C)].
Qed.

(** In the table of the source no model id is bound in two families, and
    the empty string is no key. *)
Lemma ModelFamilies_one_family (C1 C2 : string) (ms1 ms2 : list FamilyMember) (m : string) :
  ModelFamilies !! C1 = Some ms1 → ModelFamilies !! C2 = Some ms2 →
  has_model ms1 m = true → has_model ms2 m = true → C1 = C2.
Proof.
  rewrite !ModelFamilies_lookup. intros H1 H2 Hm1 Hm2.
  assert (Hall : forallb (fun e1 : string * list FamilyMember =>
                    forallb (fun e2 : string * list FamilyMember =>
                      String.eqb e1.1 e2.1
                      || forallb (fun member => negb (has_model e2.2 (ModelID member))) e1.2)
                    ModelFamilies_entries) ModelFamilies_entries = true)
    by (vm_compute; reflexivity).
  rewrite forallb_forall in Hall.
  specialize (Hall _ (proj1 (list_elem_of_In _ _) H1)).
  rewrite forallb_forall in Hall.
  specialize (Hall _ (proj1 (list_elem_of_In _ _) H2)).
  simpl in Hall. apply orb_true_iff in Hall as [Heq | Hdisj].
  - by apply String.eqb_eq.
  - apply has_model_member in Hm1 as (member & Hin & <-).
    rewrite forallb_forall in Hdisj.
    specialize (Hdisj _ (proj1 (list_elem_of_In _ _) Hin)).
    rewrite Hm2 in Hdisj. discriminate.
Qed.

Lemma ModelFamilies_no_empty_key : ModelFamilies !! "" = None.
Proof. vm_compute. reflexivity. Qed.

(** ResolveModelFamily on the scenarios S1 and S2 of the spec. *)
Example resolve_S1 :
  ResolveModelFamily "gemini-2.5-flash" ["gemini-cli"]
  = ("gemini-cli", "gemini-2.5-flash", true).
Proof. vm_compute. reflexivity. Qed.

Example resolve_S3 :
  ResolveModelFamily "claude-sonnet-4-5-thinking" ["antigravity"]
  = ("antigravity", "gemini-claude-sonnet-4-5-thinking", true).
Proof. vm_compute. reflexivity. Qed.

(** Declaration order decides between two available providers; an id that
    is no family key comes back as it is. *)
Example resolve_priority :
  ResolveModelFamily "claude-sonnet-4-5" ["claude"; "antigravity"]
  = ("antigravity", "gemini-claude-sonnet-4-5", true).
Proof. vm_compute. reflexivity. Qed.

Example resolve_unknown :
  ResolveModelFamily "gpt-4o" ["openai"] = ("", "gpt-4o", false).
Proof. vm_compute. reflexivity. Qed.

Example resolve_S2 :
  ResolveModelFamily "gemini-2.5-flash" ["aistudio"]
  = ("aistudio", "gemini-2.5-flash", true).
Proof. vm_compute. reflexivity. Qed.

(** C1. For every canonical id [C] and every list [P] of available
    providers: when [C] is a key of the family table, ResolveModelFamily
    returns the first member of [C]'s family, in declaration order, whose
    provider occurs in [P], with found = true, or, when no member's provider
    occurs in [P], the empty provider, [C] itself and found = false; when
    [C] is no key of the table it returns the empty provider, [C] and
    found = false. *)
Theorem ResolveModelFamily_first_available (C : string) (P : list string) :
  match ModelFamilies !! C with
  | Some family =>
      (∃ i member, first_available P family i member
         ∧ ResolveModelFamily C P = (Provider member, ModelID member, true))
      ∨ ((∀ member, member ∈ family → Provider member ∉ P)
         ∧ ResolveModelFamily C P = ("", C, false))
  | None => ResolveModelFamily C P = ("", C, false)
  end.
Proof.
  unfold ResolveModelFamily. destruct (ModelFamilies !! C) as [family|]; [| done].
  apply resolve_in_family_first.
Qed.

(** C4. Whatever order the map is visited in, for every provider model id
    [m]: GetCanonicalModelID returns the empty string exactly when no family
    of the table has a member with ModelID [m]; a non-empty result is a key
    whose member list contains [m]; and for every key [C] and every member
    of [C]'s family with ModelID [m], the result is [C]. *)
Theorem GetCanonicalModelID_reverse_lookup
    (visited : list (string * list FamilyMember)) (m : string) :
  iteration_order visited →
  (GetCanonicalModelID_in visited m = ""
     ↔ ¬ ∃ C members member,
           ModelFamilies !! C = Some members ∧ member ∈ members ∧ ModelID member = m)
  ∧ (GetCanonicalModelID_in visited m ≠ "" →
       ∃ members member,
         ModelFamilies !! GetCanonicalModelID_in visited m = Some members
         ∧ member ∈ members ∧ ModelID member = m)
  ∧ (∀ C members member,
       ModelFamilies !! C = Some members → member ∈ members → ModelID member = m →
       GetCanonicalModelID_in visited m = C).
Proof.
  intros Hv.
  destruct (GetCanonicalModelID_in_scan visited m) as [(ms & Hin & Hms) | [Hres Hnone]].
  - apply (iteration_order_lookup _ _ _ Hv) in Hin.
    pose proof Hms as Hmem. apply has_model_member in Hmem as (member & Hmember & Hid).
    split; [| split].
    + split.
      * intros Hempty. rewrite Hempty, ModelFamilies_no_empty_key in Hin. discriminate.
      * intros Hno. destruct Hno. by exists (GetCanonicalModelID_in visited m), ms, member.
    + intros _. by exists ms, member.
    + intros C members member' HC Hin' Hid'. symmetry.
      apply (ModelFamilies_one_family _ _ members ms m); [done | done | | done].
      apply has_model_member. by exists member'.
  - assert (Hno : ∀ C members member,
               ModelFamilies !! C = Some members → member ∈ members → ModelID member ≠ m).
    { intros C members member HC Hin Hid.
      apply (iteration_order_lookup _ _ _ Hv) in HC.
      specialize (Hnone _ _ HC).
      assert (has_model members m = true) as Htrue
        by (apply has_model_member; by exists member).
      congruence. }
    split; [| split].
    + split; [| done]. intros _ (C & members & member & HC & Hin & Hid).
      by apply (Hno C members member).
    + done.
    + intros C members member HC Hin Hid. by destruct (Hno C members member).
Qed.

(** The theorem at the order of the declaration and the model id the
    antigravity provider uses for claude-sonnet-4-5. *)
Lemma GetCanonicalModelID_reverse_lookup_witness :
  iteration_order ModelFamilies_entries
  ∧ GetCanonicalModelID_in ModelFamilies_entries "gemini-claude-sonnet-4-5"
    = "claude-sonnet-4-5".
Proof.
  assert (Hv : iteration_order ModelFamilies_entries)
    by (apply (bool_decide_unpack _); vm_compute; exact I).
  split; [exact Hv |].
  apply (proj2 (proj2 (GetCanonicalModelID_reverse_lookup
                         ModelFamilies_entries "gemini-claude-sonnet-4-5" Hv))
           "claude-sonnet-4-5"
           [ mkFamilyMember "kiro" "claude-sonnet-4-5";
             mkFamilyMember "antigravity" "gemini-claude-sonnet-4-5";
             mkFamilyMember "claude" "claude-sonnet-4-5-20250929" ]
           (mkFamilyMember "antigravity" "gemini-claude-sonnet-4-5")).
  - vm_compute. reflexivity.
  - apply list_elem_of_In. simpl. tauto.
  - reflexivity.
Defined.

(** *** Resolution and reverse lookup together *)

Lemma resolve_in_family_ext (s s' : gmap string bool) (canonicalID : string)
    (family : list FamilyMember) :
  (∀ k, index_bool s k = index_bool s' k) →
  resolve_in_family s canonicalID family = resolve_in_family s' canonicalID family.
Proof.
  intros Hext. induction family as [|member family IH]; simpl; [done |].
  by rewrite Hext, IH.
Qed.

(** A found resolution comes from a member of the family. *)
Lemma ResolveModelFamily_found (C p m : string) (P : list string) :
  ResolveModelFamily C P = (p, m, true) →
  ∃ family i member,
    ModelFamilies !! C = Some family ∧ first_available P family i member
    ∧ Provider member = p ∧ ModelID member = m.
Proof.
  unfold ResolveModelFamily. destruct (ModelFamilies !! C) as [family|] eqn:HC; [| done].
  destruct (resolve_in_family_first P C family)
    as [(i & member & Hfirst & ->) | [_ ->]]; [| done].
  intros [= <- <-]. by exists family, i, member.
Qed.

(** The reverse lookup of a member's model id is the member's family, in
    every iteration order. *)
Lemma reverse_of_member (visited : list (string * list FamilyMember)) (C : string)
    (members : list FamilyMember) (member : FamilyMember) :
  iteration_order visited → ModelFamilies !! C = Some members → member ∈ members →
  GetCanonicalModelID_in visited (ModelID member) = C.
Proof.
  intros Hv HC Hin.
  assert (Hhas : has_model members (ModelID member) = true)
    by (apply has_model_member; by exists member).
  destruct (GetCanonicalModelID_in_scan visited (ModelID member))
    as [(ms & Hvisited & Hms) | [_ Hnone]].
  - apply (iteration_order_lookup _ _ _ Hv) in Hvisited.
    by apply (ModelFamilies_one_family _ _ ms members (ModelID member)).
  - apply (iteration_order_lookup _ _ _ Hv) in HC.
    specialize (Hnone _ _ HC). congruence.
Qed.

(** Every family of the table has a member. *)
Lemma ModelFamilies_nonempty (C : string) (family : list FamilyMember) :
  ModelFamilies !! C = Some family → family ≠ [].
Proof.
  rewrite ModelFamilies_lookup. intros Hin%list_elem_of_In.
  assert (Hall : forallb (fun e : string * list FamilyMember =>
                    negb (length e.2 =? 0)%nat) ModelFamilies_entries = true)
    by (vm_compute; reflexivity).
  rewrite forallb_forall in Hall. specialize (Hall _ Hin). by destruct family.
Qed.

(** X1. ResolveModelFamily reads availableProviders as a set: two lists with
    the same providers, in whatever order and however often repeated, resolve
    every id alike. Priority comes from the family's order alone. *)
Theorem ResolveModelFamily_same_providers (C : string) (P P' : list string) :
  P ⊆ P' → P' ⊆ P → ResolveModelFamily C P = ResolveModelFamily C P'.
Proof.
  intros Hsub Hsup. unfold ResolveModelFamily.
  destruct (ModelFamilies !! C) as [family|]; [| done].
  apply resolve_in_family_ext. intros k.
  destruct (index_bool (make_availableSet P') k) eqn:Hk.
  - apply availableSet_member. apply availableSet_member in Hk. by apply Hsup.
  - apply availableSet_not_member. apply availableSet_not_member in Hk.
    intros Hin. by apply Hk, Hsub.
Qed.

Lemma ResolveModelFamily_same_providers_witness :
  ResolveModelFamily "claude-sonnet-4-5" ["claude"; "antigravity"]
  = ResolveModelFamily "claude-sonnet-4-5" ["antigravity"; "claude"; "antigravity"].
Proof.
  apply ResolveModelFamily_same_providers;
    apply (bool_decide_unpack _); vm_compute; exact I.
Defined.

(** X2. What ResolveModelFamily finds, GetCanonicalModelID maps back: when
    the resolution of [C] against [P] is found with provider [p] and model id
    [m], then [p] is one of [P], [C] is a canonical id, and the reverse lookup
    of [m] is [C] in every iteration order of the map. *)
Theorem resolve_then_reverse (visited : list (string * list FamilyMember))
    (C p m : string) (P : list string) :
  iteration_order visited →
  ResolveModelFamily C P = (p, m, true) →
  p ∈ P ∧ IsCanonicalID C = true ∧ GetCanonicalModelID_in visited m = C.
Proof.
  intros Hv Hfound.
  apply ResolveModelFamily_found in Hfound
    as (family & i & member & HC & (Hi & Hp & _) & <- & <-).
  split; [done |]. split.
  - unfold IsCanonicalID. rewrite HC. by apply bool_decide_eq_true.
  - apply (reverse_of_member visited C family); [done | done |].
    apply list_elem_of_lookup. by exists i.
Qed.

Lemma resolve_then_reverse_witness :
  "antigravity" ∈ ["claude-cli"; "antigravity"]
  ∧ IsCanonicalID "claude-opus-4-5-thinking" = true
  ∧ GetCanonicalModelID_in ModelFamilies_entries "gemini-claude-opus-4-5-thinking"
    = "claude-opus-4-5-thinking".
Proof.
  apply (resolve_then_reverse ModelFamilies_entries "claude-opus-4-5-thinking"
           "antigravity" "gemini-claude-opus-4-5-thinking" ["claude-cli"; "antigravity"]).
  - apply (bool_decide_unpack _). vm_compute. exact I.
  - vm_compute. reflexivity.
Defined.

(** X3. Fallback makes progress: when the member found for [C] is dropped
    from the available providers, together with any others, the next
    resolution of [C] either finds nothing, returning [C] itself, or finds a
    member strictly later in the family's order. *)
Theorem resolve_fallback_later (C : string) (P P' : list string)
    (family : list FamilyMember) (i : nat) (member : FamilyMember) :
  ModelFamilies !! C = Some family →
  first_available P family i member →
  P' ⊆ P → Provider member ∉ P' →
  ResolveModelFamily C P' = ("", C, false)
  ∨ ∃ j next, (i < j)%nat ∧ first_available P' family j next
      ∧ ResolveModelFamily C P' = (Provider next, ModelID next, true).
Proof.
  intros HC (Hi & _ & Hearlier) Hsub Hgone. unfold ResolveModelFamily. rewrite HC.
  destruct (resolve_in_family_first P' C family)
    as [(j & next & Hfirst & Hres) | [_ Hres]]; [| by left].
  right. exists j, next. split; [| done].
  destruct Hfirst as (Hj & Hnext & _).
  destruct (Nat.lt_trichotomy j i) as [Hlt | [-> | Hgt]]; [| | done].
  - destruct (Hearlier j next Hlt Hj). by apply Hsub.
  - rewrite Hi in Hj. injection Hj as <-. done.
Qed.

Lemma resolve_fallback_later_witness :
  ResolveModelFamily "gemini-2.5-pro" ["aistudio"] = ("", "gemini-2.5-pro", false)
  ∨ ∃ j next, (0 < j)%nat
      ∧ first_available ["aistudio"]
          [ mkFamilyMember "gemini-cli" "gemini-2.5-pro";
            mkFamilyMember "antigravity" "gemini-2.5-pro";
            mkFamilyMember "aistudio" "gemini-2.5-pro";
            mkFamilyMember "gemini" "gemini-2.5-pro" ] j next
      ∧ ResolveModelFamily "gemini-2.5-pro" ["aistudio"]
        = (Provider next, ModelID next, true).
Proof.
  apply (resolve_fallback_later "gemini-2.5-pro" ["gemini-cli"; "aistudio"] ["aistudio"]
           _ 0 (mkFamilyMember "gemini-cli" "gemini-2.5-pro")).
  - vm_compute. reflexivity.
  - split; [reflexivity | split; [apply (bool_decide_unpack _); vm_compute; exact I |]].
    intros j earlier Hj. lia.
  - apply (bool_decide_unpack _). vm_compute. exact I.
  - apply (bool_decide_unpack _). vm_compute. exact I.
Defined.

(** X4. IsCanonicalID tells exactly the ids ResolveModelFamily can find: an
    id is canonical if and only if some list of available providers resolves
    it with found = true. *)
Theorem IsCanonicalID_resolvable (C : string) :
  IsCanonicalID C = true ↔ ∃ P, (ResolveModelFamily C P).2 = true.
Proof.
  unfold IsCanonicalID. rewrite bool_decide_eq_true. split.
  - intros [family HC]. pose proof (ModelFamilies_nonempty C family HC) as Hne.
    destruct family as [|member family]; [done |].
    exists [Provider member]. unfold ResolveModelFamily. rewrite HC. simpl.
    replace (index_bool (make_availableSet [Provider member]) (Provider member)) with true;
      [done |].
    symmetry. apply availableSet_member. apply list_elem_of_In. simpl. tauto.
  - intros [P Hfound]. unfold ResolveModelFamily in Hfound.
    by destruct (ModelFamilies !! C).
Qed.

End RegistryFacts.

(** ** Model quirks *)

Module ExecutorFacts.
Import GoStrings GoStringsFacts Registry Executor.

Lemma isClaudeModel_occurs (model : string) :
  isClaudeModel model = true ↔ occurs_ignoring_case "claude" model.
Proof. apply Contains_ToLower. Qed.

Lemma isGeminiModel_occurs (model : string) :
  isGeminiModel model = true ↔ occurs_ignoring_case "gemini" model.
Proof.
  unfold isGeminiModel. cbv zeta. rewrite orb_true_iff, <- Contains_ToLower.
  split; [intros [H | H]; [by apply HasPrefix_Contains | done] | by right].
Qed.

Example isClaudeModel_upper_case : isClaudeModel "Claude-Sonnet-4" = true.
Proof. vm_compute. reflexivity. Qed.

Example isGeminiModel_kiro_id : isGeminiModel "claude-sonnet-4-5" = false.
Proof. vm_compute. reflexivity. Qed.

Example getThinkingVariant_registered :
  getThinkingVariant
    (fun id => if String.eqb id "claude-opus-4-5-thinking"
               then Some (mkModelInfo (Some thinking_support) 0 0) else None)
    "claude-opus-4-5"
  = "claude-opus-4-5-thinking".
Proof. vm_compute. reflexivity. Qed.

(** C5. For every model id [m], whatever the registry holds:
    getThinkingVariant returns [m] itself when [m] ends with "-thinking";
    otherwise it returns [m] followed by "-thinking" when that id is
    registered, and the empty string when it is not. *)
Theorem getThinkingVariant_cases (GetModelInfo : string → option ModelInfo) (m : string) :
  ((∃ stem, m = stem +:+ "-thinking") → getThinkingVariant GetModelInfo m = m)
  ∧ ((¬ ∃ stem, m = stem +:+ "-thinking") →
       (is_Some (GetModelInfo (m +:+ "-thinking")) →
          getThinkingVariant GetModelInfo m = m +:+ "-thinking")
       ∧ (GetModelInfo (m +:+ "-thinking") = None →
            getThinkingVariant GetModelInfo m = "")).
Proof.
  unfold getThinkingVariant, hasThinkingSuffix. cbv zeta.
  destruct (HasSuffix m "-thinking") eqn:Hsuffix.
  - apply HasSuffix_ends_with in Hsuffix. split; [done | tauto].
  - split.
    + intros Hends. apply HasSuffix_ends_with in Hends. congruence.
    + intros _. split.
      * intros [info ->]. done.
      * intros ->. done.
Qed.

(** C6. For every model id [m], whatever the registry holds:
    getOutputTokenLimit returns 0 when the registry does not know [m]; when
    it knows [m], the registered OutputTokenLimit if that is positive and
    the registered MaxCompletionTokens otherwise, which is 0 when neither
    field is set. *)
Theorem getOutputTokenLimit_cases (GetModelInfo : string → option ModelInfo) (m : string) :
  match GetModelInfo m with
  | None => getOutputTokenLimit GetModelInfo m = 0%Z
  | Some info =>
      ((0 < OutputTokenLimit info)%Z →
         getOutputTokenLimit GetModelInfo m = OutputTokenLimit info)
      ∧ ((OutputTokenLimit info ≤ 0)%Z →
           getOutputTokenLimit GetModelInfo m = MaxCompletionTokens info)
      ∧ (OutputTokenLimit info = 0%Z → MaxCompletionTokens info = 0%Z →
           getOutputTokenLimit GetModelInfo m = 0%Z)
  end.
Proof.
  unfold getOutputTokenLimit. destruct (GetModelInfo m) as [info|]; [| done].
  destruct (Z.ltb_spec 0 (OutputTokenLimit info)); repeat split; intros; lia.
Qed.

(** C10. isClaudeModel and isGeminiModel are searches for "claude" and for
    "gemini" up to the case of ASCII letters, and they are not mutually
    exclusive: "gemini-claude-sonnet-4-5", the id the antigravity provider
    binds in the claude-sonnet-4-5 family, satisfies both. *)
Theorem claude_and_gemini_overlap :
  (∀ model, is_ascii model = true →
     (isClaudeModel model = true ↔ occurs_ignoring_case "claude" model)
     ∧ (isGeminiModel model = true ↔ occurs_ignoring_case "gemini" model))
  ∧ (∃ family, ModelFamilies !! "claude-sonnet-4-5" = Some family
       ∧ mkFamilyMember "antigravity" "gemini-claude-sonnet-4-5" ∈ family)
  ∧ isClaudeModel "gemini-claude-sonnet-4-5" = true
  ∧ isGeminiModel "gemini-claude-sonnet-4-5" = true.
Proof.
  split; [| split; [| split]].
  - intros model _. split; [apply isClaudeModel_occurs | apply isGeminiModel_occurs].
  - eexists. split; [vm_compute; reflexivity |].
    apply list_elem_of_In. simpl. tauto.
  - vm_compute. reflexivity.
  - vm_compute. reflexivity.
Qed.

(** *** The quirks together *)

(** The three results [getThinkingVariant] has. *)
Lemma getThinkingVariant_variants (GetModelInfo : string → option ModelInfo) (m : string) :
  getThinkingVariant GetModelInfo m = ""
  ∨ getThinkingVariant GetModelInfo m = m
  ∨ getThinkingVariant GetModelInfo m = m +:+ "-thinking".
Proof.
  unfold getThinkingVariant. cbv zeta. destruct (hasThinkingSuffix m); [tauto |].
  destruct (GetModelInfo (m +:+ "-thinking")); tauto.
Qed.

(** X14. What getThinkingVariant returns is the empty string or a thinking
    id: a non-empty result ends with "-thinking", is the id asked for or that
    id followed by "-thinking", and is its own thinking variant. *)
Theorem getThinkingVariant_closed (GetModelInfo : string → option ModelInfo) (m : string) :
  getThinkingVariant GetModelInfo m = ""
  ∨ (hasThinkingSuffix (getThinkingVariant GetModelInfo m) = true
     ∧ (getThinkingVariant GetModelInfo m = m
        ∨ getThinkingVariant GetModelInfo m = m +:+ "-thinking")
     ∧ getThinkingVariant GetModelInfo (getThinkingVariant GetModelInfo m)
       = getThinkingVariant GetModelInfo m).
Proof.
  assert (Hfixed : ∀ r, hasThinkingSuffix r = true → getThinkingVariant GetModelInfo r = r)
    by (intros r Hr; unfold getThinkingVariant; by rewrite Hr).
  destruct (hasThinkingSuffix m) eqn:Hm.
  - rewrite (Hfixed m Hm). right. auto.
  - assert (Hm' : getThinkingVariant GetModelInfo m
                  = match GetModelInfo (m +:+ "-thinking") with
                    | Some _ => m +:+ "-thinking"
                    | None => ""
                    end)
      by (unfold getThinkingVariant; by rewrite Hm).
    rewrite Hm'. destruct (GetModelInfo (m +:+ "-thinking")); [| by left].
    assert (Hvariant : hasThinkingSuffix (m +:+ "-thinking") = true)
      by (apply HasSuffix_ends_with; by exists m).
    right. rewrite (Hfixed _ Hvariant). auto.
Qed.

(** X15. The thinking variant of a model is a model of the same kind: for
    an ASCII id that has a thinking variant, the variant is a Claude model
    exactly when the id is, and a Gemini model exactly when the id is. *)
Theorem thinking_variant_same_kind (GetModelInfo : string → option ModelInfo) (m : string) :
  is_ascii m = true →
  getThinkingVariant GetModelInfo m ≠ "" →
  isClaudeModel (getThinkingVariant GetModelInfo m) = isClaudeModel m
  ∧ isGeminiModel (getThinkingVariant GetModelInfo m) = isGeminiModel m.
Proof.
  intros _ Hvariant.
  destruct (getThinkingVariant_variants GetModelInfo m) as [H | [-> | ->]]; [done | done |].
  assert (Hword : ∀ w, w = "claude" ∨ w = "gemini" →
            Contains (ToLower (m +:+ "-thinking")) w = Contains (ToLower m) w).
  { intros w Hw. rewrite ToLower_app.
    change (ToLower "-thinking") with "-thinking".
    apply Bool.eq_true_iff_eq. split; [| apply Contains_app].
    destruct Hw as [-> | ->]; by apply Contains_before. }
  split.
  - unfold isClaudeModel. apply Hword. by left.
  - apply Bool.eq_true_iff_eq. rewrite !isGeminiModel_occurs, <- !Contains_ToLower.
    rewrite Hword by (by right). done.
Qed.

Lemma thinking_variant_same_kind_witness :
  isClaudeModel "claude-opus-4-5-thinking" = isClaudeModel "claude-opus-4-5"
  ∧ isGeminiModel "claude-opus-4-5-thinking" = isGeminiModel "claude-opus-4-5".
Proof.
  apply (thinking_variant_same_kind
           (fun id => if String.eqb id "claude-opus-4-5-thinking"
                      then Some (mkModelInfo (Some thinking_support) 0 0) else None)
           "claude-opus-4-5"); [reflexivity | vm_compute; discriminate].
Defined.

(** X16. getOutputTokenLimit returns a negative number for exactly the
    models registered with no positive OutputTokenLimit and a negative
    MaxCompletionTokens: a non-positive OutputTokenLimit counts as not set,
    a negative MaxCompletionTokens is passed on as it is. *)
Theorem getOutputTokenLimit_negative (GetModelInfo : string → option ModelInfo) (m : string) :
  (getOutputTokenLimit GetModelInfo m < 0)%Z
  ↔ ∃ info, GetModelInfo m = Some info
      ∧ (OutputTokenLimit info ≤ 0)%Z ∧ (MaxCompletionTokens info < 0)%Z.
Proof.
  unfold getOutputTokenLimit. destruct (GetModelInfo m) as [info|].
  - destruct (Z.ltb_spec 0 (OutputTokenLimit info)); split.
    + lia.
    + intros (? & [= <-] & ? & ?). lia.
    + intros ?. exists info. split; [done | lia].
    + by intros (? & [= <-] & _ & ?).
  - split; [lia | by intros (? & ? & _)].
Qed.

End ExecutorFacts.

(** ** The content coalescer *)

Module CoalescerFacts.
Import IR.

Section WithParts.

Context {any : Type} (nil_any : any) (growslice : nat → nat → nat).

Local Abbreviation call := (string * SliceHeader)%type.
Local Abbreviation Memory := (list (list any)).
Local Abbreviation state := (Memory * ContentCoalescer)%type.
Local Abbreviation Emit := (IR.Emit nil_any growslice).
Local Abbreviation emit_all := (IR.emit_all nil_any growslice).
Local Abbreviation append_slice := (IR.append_slice nil_any growslice).

Lemma Build_map (c : ContentCoalescer) : Build c = built_of <$> contents c.
Proof. unfold Build. by destruct (contents c). Qed.

Lemma PutContentCoalescer_new (c : ContentCoalescer) :
  PutContentCoalescer c = newContentCoalescer.
Proof. reflexivity. Qed.

(** *** Slices in memory *)










(** *** What append does to the memory *)



(** *** One call of Emit *)

(** An [Emit] with no parts changes nothing. *)
Lemma Emit_empty (r : string) (ps : SliceHeader) (st : state) :
  sl_len ps = 0%nat → Emit r ps st = st.
Proof. intros Hps. destruct st as [m c]. unfold IR.Emit. by rewrite Hps. Qed.

(** An [Emit] of the running role appends to the parts of the last content. *)
Lemma Emit_same_role (r : string) (ps : SliceHeader) (init : list geminiContent)
    (g : geminiContent) (m : Memory) (c : ContentCoalescer) :
  (0 < sl_len ps)%nat → contents c = init ++ [g] → lastRole c = r →
  Emit r ps (m, c)
  = ((append_slice m (parts g) ps).1,
     {| contents := init ++ [ {| role := role g; parts := (append_slice m (parts g) ps).2 |} ];
        lastRole := r |}).
Proof.
  intros Hps Hc Hr. unfold IR.Emit.
  destruct (Nat.eqb_spec (sl_len ps) 0) as [Hz | _]; [lia |].
  rewrite Hr, String.eqb_refl, Hc, length_app, last_snoc. simpl.
  replace (0 <? length init + 1)%nat with true by (symmetry; apply Nat.ltb_lt; lia).
  destruct (append_slice m (parts g) ps) as [m' s']. simpl. f_equal. f_equal.
  replace (length init + 1 - 1)%nat with (length init + 0)%nat by lia.
  by rewrite insert_app_r.
Qed.

(** Any other [Emit] with parts starts a new content, and leaves the memory
    alone. *)
Lemma Emit_new_role (r : string) (ps : SliceHeader) (m : Memory) (c : ContentCoalescer) :
  (0 < sl_len ps)%nat → (contents c = [] ∨ lastRole c ≠ r) →
  Emit r ps (m, c)
  = (m, {| contents := contents c ++ [ {| role := r; parts := ps |} ]; lastRole := r |}).
Proof.
  intros Hps Hc. unfold IR.Emit.
  destruct (Nat.eqb_spec (sl_len ps) 0) as [Hz | _]; [lia |].
  destruct Hc as [-> | Hne]; simpl.
  - by rewrite andb_false_r.
  - replace (String.eqb r (lastRole c)) with false; [done |].
    symmetry. apply String.eqb_neq. congruence.
Qed.

(** The two ways an [Emit] with parts goes. *)
Lemma Emit_cases (r : string) (ps : SliceHeader) (m : Memory) (c : ContentCoalescer) :
  (0 < sl_len ps)%nat →
  (∃ init g, contents c = init ++ [g] ∧ lastRole c = r
     ∧ Emit r ps (m, c)
       = ((append_slice m (parts g) ps).1,
          {| contents := init ++ [ {| role := role g;
                                      parts := (append_slice m (parts g) ps).2 |} ];
             lastRole := r |}))
  ∨ ((contents c = [] ∨ lastRole c ≠ r)
     ∧ Emit r ps (m, c)
       = (m, {| contents := contents c ++ [ {| role := r; parts := ps |} ];
                lastRole := r |})).
Proof.
  intros Hps. destruct (decide (lastRole c = r)) as [Heq | Hne].
  - destruct (contents c) as [|g init] eqn:Hc using rev_ind.
    + right. split; [by left |].
      rewrite (Emit_new_role r ps m c Hps) by (by left). by rewrite Hc.
    + left. exists init, g. split; [done |]. split; [done |]. by apply Emit_same_role.
  - right. split; [by right |]. apply Emit_new_role; [done | by right].
Qed.

Lemma append_slice_len (m : Memory) (s t : SliceHeader) :
  sl_len (append_slice m s t).2 = (sl_len s + sl_len t)%nat.
Proof. unfold IR.append_slice. by destruct (sl_len s + sl_len t <=? sl_cap s)%nat. Qed.

(** *** The spec's merge *)




Lemma merge_same_role_adjacent_distinct (l : list (string * list any)) :
  adjacent_distinct (merge_same_role l).
Proof.
  induction l as [|[r ps] l IH]; [done |].
  cbn [merge_same_role]. destruct (merge_same_role l) as [|[r' ps'] merged]; [done |].
  destruct (String.eqb r r') eqn:Hr.
  - apply String.eqb_eq in Hr as ->. destruct merged; [done |]. exact IH.
  - apply String.eqb_neq in Hr. split; [done | exact IH].
Qed.

Lemma adjacent_distinct_snoc {B : Type} (l : list (string * B)) (x : string * B) :
  adjacent_distinct l → (∀ y, last l = Some y → y.1 ≠ x.1) →
  adjacent_distinct (l ++ [x]).
Proof.
  induction l as [|a l IH]; [done |].
  intros Hl Hlast. destruct l as [|b l].
  - simpl. split; [by apply Hlast | done].
  - destruct Hl as [Hab Hl]. split; [done |].
    apply IH; [done |]. intros y Hy. by apply Hlast.
Qed.

Lemma adjacent_distinct_roles {B B' : Type} (l1 : list (string * B))
    (l2 : list (string * B')) :
  l1.*1 = l2.*1 → adjacent_distinct l1 → adjacent_distinct l2.
Proof.
  revert l2. induction l1 as [|a l1 IH]; intros [|b l2] Heq; try done.
  injection Heq as Hab Heq. destruct l1 as [|a' l1], l2 as [|b' l2]; try done.
  intros [Hne Hl]. split.
  - injection Heq as Hab' _. congruence.
  - by apply IH.
Qed.



(** *** The invariant of the coalescer *)

(** A coalescer without contents satisfies the invariant whatever its running
    role: [Emit] tests the length before it trusts the role. *)
Lemma empty_coalescer_ok (c : ContentCoalescer) : contents c = [] → coalescer_ok c.
Proof.
  intros Hc. split; [| split].
  - intros g Hg. rewrite Hc in Hg. discriminate.
  - rewrite Build_map, Hc. done.
  - unfold parts_nonempty. rewrite Hc. by apply Forall_nil.
Qed.

(** One [Emit] keeps the invariant, in every memory. *)
Lemma Emit_ok (r : string) (ps : SliceHeader) (m : Memory) (c : ContentCoalescer) :
  coalescer_ok c → coalescer_ok (Emit r ps (m, c)).2.
Proof.
  intros (Hlast & Hadj & Hparts).
  destruct (decide (sl_len ps = 0%nat)) as [Hz | Hps]; [by rewrite Emit_empty |].
  assert (Hpos : (0 < sl_len ps)%nat) by lia.
  rewrite Build_map in Hadj. unfold parts_nonempty in *.
  destruct (Emit_cases r ps m c Hpos) as [(init & g & Hcs & Hr & ->) | [Hnew ->]];
    cbn [snd]; (split; [| split]).
  - intros g' Hg'. simpl in *. rewrite last_snoc in Hg'. injection Hg' as <-. simpl.
    rewrite <- Hr. apply Hlast. rewrite Hcs. apply last_snoc.
  - rewrite Build_map. simpl contents.
    eapply adjacent_distinct_roles; [| exact Hadj].
    rewrite Hcs, !fmap_app. simpl. done.
  - simpl. rewrite Hcs in Hparts. apply Forall_app in Hparts as [Hinit _].
    apply Forall_app. split; [done |]. apply Forall_singleton. simpl.
    rewrite append_slice_len. lia.
  - intros g' Hg'. simpl in *. rewrite last_snoc in Hg'. by injection Hg' as <-.
  - rewrite Build_map. simpl contents. rewrite fmap_app. simpl.
    apply adjacent_distinct_snoc; [done |].
    intros y Hy. destruct (contents c) as [|g0 init] eqn:Hc using rev_ind; [done |].
    rewrite fmap_app in Hy. simpl in Hy. rewrite last_snoc in Hy.
    injection Hy as <-. simpl.
    destruct Hnew as [Hnil | Hne]; [by destruct init |].
    rewrite (Hlast g0) by (rewrite Hc; apply last_snoc). done.
  - simpl. apply Forall_app. split; [done |]. by apply Forall_singleton.
Qed.

Lemma emit_all_ok (calls : list call) (m : Memory) (c : ContentCoalescer) :
  coalescer_ok c → coalescer_ok (emit_all calls (m, c)).2.
Proof.
  revert m c. induction calls as [|[r ps] calls IH]; intros m c Hok; [done |].
  unfold IR.emit_all in *. cbn [foldl fst snd].
  pose proof (Emit_ok r ps m c Hok) as Hok'.
  destruct (Emit r ps (m, c)) as [m' c']. by apply IH.
Qed.

(** Once a content is there the coalescer never is without contents again,
    so a coalescer that starts new has the zero role only without contents. *)
Lemma emit_all_zero_role (calls : list call) (m : Memory) (c : ContentCoalescer) :
  (contents c = [] → lastRole c = "") →
  contents (emit_all calls (m, c)).2 = [] → lastRole (emit_all calls (m, c)).2 = "".
Proof.
  revert m c. induction calls as [|[r ps] calls IH]; intros m c Hc; [done |].
  unfold IR.emit_all in *. cbn [foldl fst snd].
  destruct (decide (sl_len ps = 0%nat)) as [Hz | Hps].
  - rewrite Emit_empty by done. by apply IH.
  - assert (Hpos : (0 < sl_len ps)%nat) by lia.
    destruct (Emit_cases r ps m c Hpos) as [(init & g & Hcs & Hr & ->) | [Hnew ->]];
      apply IH; simpl; intros Hnil; by apply app_eq_nil in Hnil as [_ ?].
Qed.

(** *** A run of calls on slices that keep apart *)












Lemma newContentCoalescer_ok : coalescer_ok newContentCoalescer.
Proof. by apply empty_coalescer_ok. Qed.


(** *** The coalescer beyond one run *)

(** X5. The coalescer keeps its running role in step with its contents:
    after any run of Emit calls on a new coalescer, in any memory, lastRole
    is the role of the last content, and the zero role when there is no
    content; and every content holds at least one part. *)
Theorem emit_all_invariant (m : Memory) (calls : list call) :
  lastRole (emit_all calls (m, newContentCoalescer)).2
  = default "" (role <$> last (contents (emit_all calls (m, newContentCoalescer)).2))
  ∧ parts_nonempty (contents (emit_all calls (m, newContentCoalescer)).2).
Proof.
  destruct (emit_all_ok calls m _ newContentCoalescer_ok) as (Hlast & _ & Hparts).
  split; [| done].
  destruct (last (contents (emit_all calls (m, newContentCoalescer)).2))
    as [g|] eqn:Hg; simpl.
  - symmetry. by apply Hlast.
  - apply emit_all_zero_role; [done |]. by apply last_None.
Qed.



Lemma adjacent_distinct_middle {B : Type} (l l' : list (string * B)) (x y : string * B) :
  adjacent_distinct (l ++ x :: y :: l') → x.1 ≠ y.1.
Proof.
  induction l as [|a l IH]; simpl.
  - by intros [? _].
  - destruct (l ++ x :: y :: l') eqn:Hl; [by destruct l |]. intros [_ ?]. by apply IH.
Qed.

Lemma default_last_cons {X : Type} (f : X → string) (d : string) (x : X) (l : list X) :
  default d (f <$> last (x :: l)) = default (f x) (f <$> last l).
Proof. rewrite last_cons. by destruct (last l). Qed.

(** Calls with parts whose roles differ from neighbour to neighbour, and
    from the running role, each start a content: no slice is appended to, and
    the memory stays as it is. *)
Lemma emit_all_distinct (b : list call) (m : Memory) (c : ContentCoalescer) :
  last_role_ok c → adjacent_distinct (Build c ++ b) →
  Forall (fun x : call => (0 < sl_len x.2)%nat) b →
  emit_all b (m, c)
  = (m, {| contents := contents c ++ ((fun x : call => mkContent x.1 x.2) <$> b);
           lastRole := default (lastRole c) (fst <$> last b) |}).
Proof.
  revert c. induction b as [|[r s] b IH]; intros c Hlast Hadj Hne.
  { unfold IR.emit_all. simpl. rewrite (right_id_L [] (++)). by destruct c. }
  apply Forall_cons in Hne as [Hs Hne]. simpl in Hs.
  unfold IR.emit_all in *. cbn [foldl fst snd].
  rewrite (Emit_new_role r s m c Hs).
  2:{ destruct (contents c) as [|g init] eqn:Hc using rev_ind; [by left | right].
      rewrite Build_map, Hc, fmap_app, <- (assoc_L (++)) in Hadj.
      apply adjacent_distinct_middle in Hadj. simpl in Hadj.
      rewrite <- (Hlast g); [done |]. rewrite Hc. apply last_snoc. }
  rewrite IH; cbn [contents lastRole].
  - rewrite <- (assoc_L (++)). cbn [fmap list_fmap app fst snd].
    by rewrite default_last_cons.
  - intros g Hg. cbn [contents lastRole] in *. rewrite last_snoc in Hg.
    by injection Hg as <-.
  - rewrite Build_map in *. cbn [contents]. rewrite fmap_app, <- (assoc_L (++)). done.
  - done.
Qed.

Lemma contents_of_Build (cs : list geminiContent) :
  (fun x : call => mkContent x.1 x.2) <$> (built_of <$> cs) = cs.
Proof. induction cs as [|[r s] cs IH]; [done |]. rewrite !fmap_cons. by f_equal. Qed.

(** X7. Coalescing is idempotent: the list Build returns, emitted content by
    content into a new coalescer, leaves the memory as it is and the new
    coalescer in the state of the one that built the list, so that it builds
    the same list again. *)
Theorem Build_recoalesce (m : Memory) (calls : list call) :
  emit_all (Build (emit_all calls (m, newContentCoalescer)).2)
           ((emit_all calls (m, newContentCoalescer)).1, newContentCoalescer)
  = emit_all calls (m, newContentCoalescer).
Proof.
  destruct (emit_all_ok calls m _ newContentCoalescer_ok) as (Hlast & Hadj & Hparts).
  pose proof (emit_all_zero_role calls m newContentCoalescer (fun _ => eq_refl)) as Hzero.
  destruct (emit_all calls (m, newContentCoalescer)) as [m1 c1]. cbn [fst snd] in *.
  rewrite emit_all_distinct.
  - rewrite Build_map, contents_of_Build. cbn [contents lastRole app].
    f_equal. destruct c1 as [cs lr]. cbn [contents lastRole] in *. f_equal.
    rewrite fmap_last.
    destruct (last cs) as [g|] eqn:Hg; simpl.
    + by apply Hlast.
    + symmetry. apply Hzero. by apply last_None.
  - intros g Hg. discriminate.
  - done.
  - rewrite Build_map. apply Forall_fmap. exact Hparts.
Qed.

(** Two coalescers without contents go through a run of calls alike: the
    first call with parts starts the first content whatever the running
    role was. *)
Lemma emit_all_without_contents (calls : list call) (m : Memory)
    (c c' : ContentCoalescer) :
  contents c = [] → contents c' = [] →
  (emit_all calls (m, c)).1 = (emit_all calls (m, c')).1
  ∧ Build (emit_all calls (m, c)).2 = Build (emit_all calls (m, c')).2.
Proof.
  revert c c'. induction calls as [|[r ps] calls IH]; intros c c' Hc Hc'.
  { unfold IR.emit_all. simpl. by rewrite !Build_map, Hc, Hc'. }
  unfold IR.emit_all in *. cbn [foldl fst snd].
  destruct (decide (sl_len ps = 0%nat)) as [Hz | Hps].
  - rewrite !Emit_empty by done. by apply IH.
  - rewrite !Emit_new_role by (lia || by left). by rewrite Hc, Hc'.
Qed.

(** X9. A coalescer taken from the pool works like a new one: whenever the
    pooled coalescer has no contents, as everything PutContentCoalescer puts
    back has, a run of Emit calls on the coalescer GetContentCoalescer
    returns leaves the memory and builds the list that the same run on a new
    coalescer does, whatever its running role and whatever capacity is asked
    for. *)
Theorem GetContentCoalescer_like_new (pooled : ContentCoalescer) (cap_contents : nat)
    (capacity : Z) (m : Memory) (calls : list call) :
  contents pooled = [] →
  (emit_all calls (m, GetContentCoalescer pooled cap_contents capacity)).1
  = (emit_all calls (m, newContentCoalescer)).1
  ∧ Build (emit_all calls (m, GetContentCoalescer pooled cap_contents capacity)).2
    = Build (emit_all calls (m, newContentCoalescer)).2.
Proof.
  intros Hempty. apply emit_all_without_contents; [| done].
  unfold GetContentCoalescer. by destruct (Z.of_nat cap_contents <? capacity)%Z.
Qed.

End WithParts.

(** The sample run: the second call is written into the spare cells of the
    first call's array, the last call makes [append] allocate. *)
Example Build_sample_calls :
  emit_all 0%nat sample_growslice sample_calls (sample_memory, newContentCoalescer)
  = ([[1; 2; 3; 0]; [3; 4]; [4; 3; 4]],
     {| contents := [ {| role := "user"; parts := mkSliceHeader 0 0 3 4 |};
                      {| role := "model"; parts := mkSliceHeader 2 0 3 3 |} ];
        lastRole := "model" |}).
Proof. reflexivity. Qed.



(** The slices of that run do not keep apart. *)
Example shared_calls_not_separate : separate (emitted shared_calls) = false.
Proof. reflexivity. Qed.

(** A coalescer used for one request, put back, taken again for the next. *)
Lemma GetContentCoalescer_like_new_witness :
  (emit_all 0%nat sample_growslice sample_calls
     (sample_memory,
      GetContentCoalescer
        (PutContentCoalescer
           (emit_all 0%nat sample_growslice shared_calls
              (shared_memory, newContentCoalescer)).2)
        16 32)).1
  = (emit_all 0%nat sample_growslice sample_calls (sample_memory, newContentCoalescer)).1
  ∧ Build (emit_all 0%nat sample_growslice sample_calls
             (sample_memory,
              GetContentCoalescer
                (PutContentCoalescer
                   (emit_all 0%nat sample_growslice shared_calls
                      (shared_memory, newContentCoalescer)).2)
                16 32)).2
    = Build (emit_all 0%nat sample_growslice sample_calls
               (sample_memory, newContentCoalescer)).2.
Proof. apply GetContentCoalescer_like_new. reflexivity. Defined.

End CoalescerFacts.

(** ** SSE frames *)

Module SSEFacts.
Import GoStrings IR.

Section WithRuntime.

Variable growslice : nat → nat → nat.

Lemma data_append_bytes (buf : ByteSlice) (xs : list ascii) :
  data (append_bytes growslice buf xs) = data buf ++ xs.
Proof. reflexivity. Qed.

(** An [append] within the capacity keeps the backing array. *)
Lemma capacity_append_bytes (buf : ByteSlice) (xs : list ascii) :
  (length (data buf) + length xs ≤ capacity buf)%nat →
  capacity (append_bytes growslice buf xs) = capacity buf.
Proof.
  intros Hfit. unfold append_bytes. cbv zeta. simpl.
  by destruct (Nat.leb_spec (length (data buf) + length xs) (capacity buf)); [| lia].
Qed.

Lemma length_bytes_of (s : string) : length (bytes_of s) = String.length s.
Proof. induction s as [|c s IH]; simpl; [done | by rewrite IH]. Qed.

(** The buffer [BuildSSEChunk] fills: empty, and large enough for the frame. *)
Lemma chunk_buffer (pooled : ByteSlice) (size : nat) :
  let buf := GetSSEChunkBuf pooled in
  let buf := if (capacity buf <? size)%nat then make_bytes size else buf in
  data buf = [] ∧ (size ≤ capacity buf)%nat.
Proof.
  cbv zeta. destruct (Nat.ltb_spec (capacity (GetSSEChunkBuf pooled)) size); simpl; split;
    (done || lia).
Qed.

Lemma chunk_buffer_capacity (pooled : ByteSlice) (size : nat) :
  capacity (if (capacity (GetSSEChunkBuf pooled) <? size)%nat
            then make_bytes size else GetSSEChunkBuf pooled)
  = Nat.max (capacity pooled) size.
Proof.
  destruct (Nat.ltb_spec (capacity (GetSSEChunkBuf pooled)) size); simpl in *; lia.
Qed.

(** Three appends into an empty buffer that has room for them keep its
    backing array. *)
Lemma fill_capacity (buf : ByteSlice) (xs ys zs : list ascii) :
  data buf = [] → (length xs + length ys + length zs ≤ capacity buf)%nat →
  capacity (append_bytes growslice
              (append_bytes growslice (append_bytes growslice buf xs) ys) zs)
  = capacity buf.
Proof.
  intros Hdata Hfit.
  assert (H1 : capacity (append_bytes growslice buf xs) = capacity buf).
  { apply capacity_append_bytes. rewrite Hdata. simpl. lia. }
  assert (H2 : capacity (append_bytes growslice (append_bytes growslice buf xs) ys)
               = capacity buf).
  { rewrite capacity_append_bytes; [done |].
    rewrite data_append_bytes, Hdata, H1. simpl. lia. }
  rewrite capacity_append_bytes; [done |].
  rewrite !data_append_bytes, Hdata, H2, length_app. simpl. lia.
Qed.

(** [BuildSSEChunk] never reallocates: the size it computes is the length of
    the frame. *)
Lemma BuildSSEChunk_capacity (pooled : ByteSlice) (jsonData : list ascii) :
  capacity (BuildSSEChunk growslice pooled jsonData)
  = Nat.max (capacity pooled) (6 + length jsonData + 2).
Proof.
  unfold BuildSSEChunk. cbv zeta.
  destruct (chunk_buffer pooled (6 + length jsonData + 2)) as [Hdata Hcap].
  cbv zeta in Hdata, Hcap.
  rewrite fill_capacity; [apply chunk_buffer_capacity | done | exact Hcap].
Qed.

(** C3. For every payload, the frame BuildSSEChunk builds is exactly the
    bytes "data: ", the payload and two line feeds; for every event type and
    payload, the frame BuildSSEEvent builds is exactly "event: ", the event
    type, a line feed, "data: ", the payload and two line feeds. Neither
    depends on the buffer the pool hands out. *)
Theorem BuildSSE_frames (pooled : ByteSlice) (eventType : string) (jsonData : list ascii) :
  data (BuildSSEChunk growslice pooled jsonData)
  = bytes_of "data: " ++ jsonData ++ [LF; LF]
  ∧ data (BuildSSEEvent growslice pooled eventType jsonData)
    = bytes_of "event: " ++ bytes_of eventType ++ [LF] ++ bytes_of "data: "
      ++ jsonData ++ [LF; LF].
Proof.
  split.
  - unfold BuildSSEChunk. cbv zeta. rewrite !data_append_bytes.
    destruct (chunk_buffer pooled (6 + length jsonData + 2)) as [-> _].
    by rewrite <- !(assoc_L (++)).
  - unfold BuildSSEEvent. cbv zeta. rewrite !data_append_bytes.
    destruct (chunk_buffer pooled (7 + String.length eventType + 7 + length jsonData + 2))
      as [-> _].
    by rewrite <- !(assoc_L (++)).
Qed.

(** *** Sizes, and frames read back *)

(** A run of appends into an empty buffer with room for all of them: the
    bytes pile up and the backing array stays. *)
Lemma appends_fit (chunks : list (list ascii)) (buf : ByteSlice) :
  (length (data buf) + length (concat chunks) ≤ capacity buf)%nat →
  data (foldl (append_bytes growslice) buf chunks) = data buf ++ concat chunks
  ∧ capacity (foldl (append_bytes growslice) buf chunks) = capacity buf.
Proof.
  revert buf. induction chunks as [|xs chunks IH]; intros buf Hfit; simpl in *.
  - by rewrite (right_id_L [] (++)).
  - rewrite length_app in Hfit.
    destruct (IH (append_bytes growslice buf xs)) as [Hdata Hcap].
    { rewrite data_append_bytes, length_app, capacity_append_bytes; lia. }
    rewrite Hdata, Hcap, data_append_bytes, capacity_append_bytes by lia.
    by rewrite (assoc_L (++)).
Qed.

Lemma BuildSSEChunk_data (pooled : ByteSlice) (jsonData : list ascii) :
  data (BuildSSEChunk growslice pooled jsonData)
  = bytes_of "data: " ++ jsonData ++ [LF; LF].
Proof.
  unfold BuildSSEChunk. cbv zeta. rewrite !data_append_bytes.
  destruct (chunk_buffer pooled (6 + length jsonData + 2)) as [-> _].
  by rewrite <- !(assoc_L (++)).
Qed.

Lemma BuildSSEEvent_data (pooled : ByteSlice) (eventType : string) (jsonData : list ascii) :
  data (BuildSSEEvent growslice pooled eventType jsonData)
  = bytes_of "event: " ++ bytes_of eventType ++ LF :: bytes_of "data: "
    ++ jsonData ++ [LF; LF].
Proof.
  unfold BuildSSEEvent. cbv zeta. rewrite !data_append_bytes.
  destruct (chunk_buffer pooled (7 + String.length eventType + 7 + length jsonData + 2))
    as [-> _].
  by rewrite <- !(assoc_L (++)).
Qed.

Lemma BuildSSEEvent_capacity (pooled : ByteSlice) (eventType : string)
    (jsonData : list ascii) :
  capacity (BuildSSEEvent growslice pooled eventType jsonData)
  = Nat.max (capacity pooled) (7 + String.length eventType + 7 + length jsonData + 2).
Proof.
  set (size := (7 + String.length eventType + 7 + length jsonData + 2)%nat).
  destruct (chunk_buffer pooled size) as [Hdata Hcap]. cbv zeta in Hdata, Hcap.
  change (BuildSSEEvent growslice pooled eventType jsonData)
    with (foldl (append_bytes growslice)
            (if (capacity (GetSSEChunkBuf pooled) <? size)%nat
             then make_bytes size else GetSSEChunkBuf pooled)
            [bytes_of "event: "; bytes_of eventType; LF :: bytes_of "data: ";
             jsonData; [LF; LF]]).
  set (buf := if (capacity (GetSSEChunkBuf pooled) <? size)%nat
              then make_bytes size else GetSSEChunkBuf pooled) in *.
  destruct (appends_fit
              [bytes_of "event: "; bytes_of eventType; LF :: bytes_of "data: ";
               jsonData; [LF; LF]] buf) as [_ ->].
  - rewrite Hdata. cbn [concat]. rewrite !length_app. cbn [length].
    rewrite !length_bytes_of. subst size. simpl String.length. lia.
  - apply chunk_buffer_capacity.
Qed.

(** X10. Both builders compute the length of the frame before they write
    it, and compute it exactly: the frame is as long as the size reserved, so
    no append reallocates, and the buffer returned is the pooled one when
    that has room and one allocation of exactly the frame's length
    otherwise. *)
Theorem BuildSSE_sized (pooled : ByteSlice) (eventType : string) (jsonData : list ascii) :
  length (data (BuildSSEChunk growslice pooled jsonData)) = (6 + length jsonData + 2)%nat
  ∧ capacity (BuildSSEChunk growslice pooled jsonData)
    = Nat.max (capacity pooled) (6 + length jsonData + 2)
  ∧ length (data (BuildSSEEvent growslice pooled eventType jsonData))
    = (7 + String.length eventType + 7 + length jsonData + 2)%nat
  ∧ capacity (BuildSSEEvent growslice pooled eventType jsonData)
    = Nat.max (capacity pooled) (7 + String.length eventType + 7 + length jsonData + 2).
Proof.
  split; [| split; [apply BuildSSEChunk_capacity | split; [| apply BuildSSEEvent_capacity]]].
  - rewrite BuildSSEChunk_data, !length_app. simpl. lia.
  - rewrite BuildSSEEvent_data, !length_app. simpl.
    rewrite !length_app, length_bytes_of. simpl. lia.
Qed.

Lemma bytes_of_inj (s t : string) : bytes_of s = bytes_of t → s = t.
Proof.
  intros H. apply (f_equal string_of_list_ascii) in H.
  unfold bytes_of in H. by rewrite !string_of_list_ascii_of_string in H.
Qed.

(** Two texts cut at their first line feed agree part by part. *)
Lemma split_at_line_feed (l1 l2 r1 r2 : list ascii) :
  LF ∉ l1 → LF ∉ l2 → l1 ++ LF :: r1 = l2 ++ LF :: r2 → l1 = l2 ∧ r1 = r2.
Proof.
  revert l2. induction l1 as [|x l1 IH]; intros [|y l2] H1 H2 H; simpl in H.
  - by injection H as ->.
  - injection H as <- _. destruct H2. by left.
  - injection H as -> _. destruct H1. by left.
  - injection H as -> H. apply not_elem_of_cons in H1 as [_ H1].
    apply not_elem_of_cons in H2 as [_ H2].
    destruct (IH l2 H1 H2 H) as [-> ->]. done.
Qed.

(** X11. A data frame stands for one payload: the frames BuildSSEChunk
    builds for two payloads are equal if and only if the payloads are,
    whatever buffers the pool handed out. *)
Theorem BuildSSEChunk_injective (pooled pooled' : ByteSlice) (a b : list ascii) :
  data (BuildSSEChunk growslice pooled a) = data (BuildSSEChunk growslice pooled' b)
  ↔ a = b.
Proof.
  rewrite !BuildSSEChunk_data. split; [| by intros ->].
  intros H. apply app_inv_head in H. by apply app_inv_tail in H.
Qed.

(** X12. An event frame stands for one event type and one payload as long
    as the event types hold no line feed: BuildSSEEvent writes the event type
    as it is, so only then do equal frames mean equal event types and equal
    payloads. *)
Theorem BuildSSEEvent_injective (pooled pooled' : ByteSlice) (eventType eventType' : string)
    (a b : list ascii) :
  LF ∉ bytes_of eventType → LF ∉ bytes_of eventType' →
  data (BuildSSEEvent growslice pooled eventType a)
  = data (BuildSSEEvent growslice pooled' eventType' b) →
  eventType = eventType' ∧ a = b.
Proof.
  intros Hclean Hclean'. rewrite !BuildSSEEvent_data. intros H.
  apply app_inv_head in H. apply split_at_line_feed in H as [He H]; [| done | done].
  apply app_inv_head in H. apply app_inv_tail in H.
  split; [by apply bytes_of_inj | done].
Qed.

End WithRuntime.

(** The frame that ends an OpenAI stream, built into a fresh pool buffer. *)
Example BuildSSEChunk_done :
  data (BuildSSEChunk (fun _ needed => needed) newSSEChunkBuf (bytes_of "[DONE]"))
  = bytes_of "data: [DONE]" ++ [LF; LF].
Proof. reflexivity. Qed.

Lemma BuildSSEEvent_injective_witness :
  "message_start" = "message_start" ∧ bytes_of "{}" = bytes_of "{}".
Proof.
  apply (BuildSSEEvent_injective (fun _ needed => needed) newSSEChunkBuf (make_bytes 4096)
           "message_start" "message_start" (bytes_of "{}") (bytes_of "{}")).
  - apply (bool_decide_unpack _). vm_compute. exact I.
  - apply (bool_decide_unpack _). vm_compute. exact I.
  - reflexivity.
Defined.

(** With a line feed in the event type the frame no longer tells event type
    and payload apart. *)
Example BuildSSEEvent_line_feed :
  data (BuildSSEEvent (fun _ needed => needed) newSSEChunkBuf
          (String "a" (String LF "data: b")) (bytes_of "c"))
  = data (BuildSSEEvent (fun _ needed => needed) newSSEChunkBuf
            "a" (bytes_of "b" ++ LF :: bytes_of "data: c")).
Proof. reflexivity. Qed.

(** *** The pool *)

Lemma PutSSEChunkBuf_ok (b : ByteSlice) (pool : list ByteSlice) :
  Forall pooled_ok pool → Forall pooled_ok (PutSSEChunkBuf b pool).
Proof.
  intros Hpool. unfold PutSSEChunkBuf.
  destruct (Nat.leb_spec 512 (capacity b)); [| done].
  destruct (Nat.leb_spec (capacity b) 4096); [| done]. simpl.
  apply Forall_app. split; [done |]. apply Forall_singleton. split; [done | simpl; lia].
Qed.

Lemma pool_delete_ok (pick : nat) (pool : list ByteSlice) :
  Forall pooled_ok pool → Forall pooled_ok (delete pick pool).
Proof. intros Hpool. by apply Forall_delete. Qed.

Lemma pool_after_ok (history : list pool_step) : Forall pooled_ok (pool_after history).
Proof.
  unfold pool_after.
  assert (Hgen : ∀ pool, Forall pooled_ok pool → Forall pooled_ok (foldl pool_do pool history)).
  { induction history as [|step history IH]; intros pool Hpool; [done |].
    simpl. apply IH. destruct step as [b | pick | pick]; simpl.
    - by apply PutSSEChunkBuf_ok.
    - unfold sseChunkPool_Get. destruct (pool !! pick); simpl;
        [by apply pool_delete_ok | done].
    - by apply pool_delete_ok. }
  apply Hgen, Forall_nil. done.
Qed.

(** X13. The pool of chunk buffers holds only buffers of 512 to 4096 bytes
    capacity: whatever buffers callers put back, take out or lose to the
    collector, the buffer GetSSEChunkBuf returns next is empty and has a
    capacity of at least 512 and at most 4096. *)
Theorem GetSSEChunkBuf_bounds (history : list pool_step) (pick : nat) :
  pooled_ok (GetSSEChunkBuf (sseChunkPool_Get pick (pool_after history)).1).
Proof.
  pose proof (pool_after_ok history) as Hpool. unfold sseChunkPool_Get.
  destruct (pool_after history !! pick) as [b|] eqn:Hb; simpl.
  - rewrite Forall_lookup in Hpool. destruct (Hpool _ _ Hb) as [_ Hcap].
    split; [done | exact Hcap].
  - split; [done | simpl; lia].
Qed.

(** A buffer grown past 4096 bytes does not come back from the pool. *)
Example PutSSEChunkBuf_large :
  pool_after [StepPut (make_bytes 4097); StepPut (make_bytes 511)] = [].
Proof. reflexivity. Qed.

End SSEFacts.

(** ** The OAuth start handler *)

Module ManagementFacts.
Import GoStrings GoStringsFacts Management.

(** *** The JSON body *)

Lemma member_app (key : string) (o1 o2 : list (string * JSON)) :
  member key (o1 ++ o2)
  = match member key o1 with Some v => Some v | None => member key o2 end.
Proof.
  induction o1 as [|[k v] o1 IH]; simpl; [done |]. by destruct (String.eqb k key).
Qed.

Lemma member_omitempty_string (key k value : string) :
  member key (omitempty_string k value)
  = if String.eqb k key && negb (String.eqb value "") then Some (JString value) else None.
Proof.
  unfold omitempty_string. destruct (String.eqb value ""); simpl.
  - by rewrite andb_false_r.
  - by destruct (String.eqb k key).
Qed.

Lemma member_omitempty_int (key k : string) (value : Z) :
  member key (omitempty_int k value)
  = if String.eqb k key && negb (value =? 0)%Z then Some (JNumber value) else None.
Proof.
  unfold omitempty_int. destruct (value =? 0)%Z; simpl.
  - by rewrite andb_false_r.
  - by destruct (String.eqb k key).
Qed.

(** Looks a member up in a response body, field by field. *)
Ltac member_of_body :=
  unfold string_member, int_member, json_body;
  rewrite ?member_app, ?member_omitempty_string, ?member_omitempty_int;
  cbn [member String.eqb Ascii.eqb Bool.eqb andb negb].

(** A field tagged [omitempty] reads back as the struct holds it: the zero
    value when it was left out. *)
Ltac reads_back :=
  member_of_body;
  repeat match goal with
         | |- context [String.eqb ?v ""] => destruct (String.eqb_spec v "")
         | |- context [(?v =? 0)%Z] => destruct (Z.eqb_spec v 0)
         end;
  simpl; congruence.

Lemma body_status (r : OAuthStartResponse) :
  member "status" (json_body r) = Some (JString (Status r)).
Proof. reflexivity. Qed.

Lemma body_error (r : OAuthStartResponse) :
  string_member "error" (json_body r) = Error r.
Proof. reads_back. Qed.

Lemma body_state (r : OAuthStartResponse) :
  string_member "state" (json_body r) = State r.
Proof. reads_back. Qed.

Lemma body_flow_type (r : OAuthStartResponse) :
  string_member "flow_type" (json_body r) = FlowType r.
Proof. reads_back. Qed.

Lemma body_user_code (r : OAuthStartResponse) :
  string_member "user_code" (json_body r) = UserCode r.
Proof. reads_back. Qed.

Lemma body_verification_url (r : OAuthStartResponse) :
  string_member "verification_url" (json_body r) = VerificationURL r.
Proof. reads_back. Qed.

Lemma body_expires_in (r : OAuthStartResponse) :
  int_member "expires_in" (json_body r) = ExpiresIn r.
Proof. reads_back. Qed.

Lemma body_interval (r : OAuthStartResponse) :
  int_member "interval" (json_body r) = Interval r.
Proof. reads_back. Qed.

(** *** The random state *)

Lemma hex_encode_length (bs : list ascii) :
  String.length (hex_encode bs) = (2 * length bs)%nat.
Proof. induction bs as [|b bs IH]; simpl; [done | rewrite IH; lia]. Qed.

(** A state token is 32 characters long. *)
Lemma is_state_token_length (s : string) : is_state_token s → String.length s = 32%nat.
Proof. intros (bs & Hlen & ->). rewrite hex_encode_length, Hlen. done. Qed.

Lemma hex_digit_url_safe (n : nat) : (n < 16)%nat → url_safe_byte (hex_digit n) = true.
Proof. intros Hn. do 16 (destruct n as [|n]; [reflexivity |]). lia. Qed.

Lemma hex_digit_inj (m n : nat) :
  (m < 16)%nat → (n < 16)%nat → hex_digit m = hex_digit n → m = n.
Proof.
  intros Hm Hn H. apply (f_equal Ascii.nat_of_ascii) in H.
  do 16 (destruct m as [|m]; [do 16 (destruct n as [|n]; [by vm_compute in H |]); lia |]).
  lia.
Qed.

Lemma byte_nibbles (b : ascii) :
  (Ascii.nat_of_ascii b / 16 < 16)%nat ∧ (Ascii.nat_of_ascii b mod 16 < 16)%nat.
Proof.
  pose proof (Ascii.nat_ascii_bounded b). split.
  - apply Nat.Div0.div_lt_upper_bound. lia.
  - apply Nat.mod_upper_bound. lia.
Qed.

(** The hexadecimal rendering is URL-safe. *)
Lemma hex_encode_url_safe (bs : list ascii) : url_safe (hex_encode bs) = true.
Proof.
  unfold url_safe. induction bs as [|b bs IH]; [done |].
  destruct (byte_nibbles b). simpl. by rewrite !hex_digit_url_safe, IH.
Qed.

(** The rendering loses nothing: different bytes give different states, so a
    state token carries the 128 bits of its 16 bytes. *)
Lemma hex_encode_inj (bs bs' : list ascii) : hex_encode bs = hex_encode bs' → bs = bs'.
Proof.
  revert bs'. induction bs as [|b bs IH]; intros [|b' bs'] H; try done.
  change (String (hex_digit (Ascii.nat_of_ascii b / 16))
            (String (hex_digit (Ascii.nat_of_ascii b mod 16)) (hex_encode bs))
          = String (hex_digit (Ascii.nat_of_ascii b' / 16))
              (String (hex_digit (Ascii.nat_of_ascii b' mod 16)) (hex_encode bs'))) in H.
  injection H as Hhi Hlo Hrest.
  change (hex_digit (Ascii.nat_of_ascii b / 16) = hex_digit (Ascii.nat_of_ascii b' / 16))
    in Hhi.
  change (hex_digit (Ascii.nat_of_ascii b mod 16) = hex_digit (Ascii.nat_of_ascii b' mod 16))
    in Hlo.
  destruct (byte_nibbles b), (byte_nibbles b').
  apply hex_digit_inj in Hhi; [| done | done]. apply hex_digit_inj in Hlo; [| done | done].
  f_equal; [| by apply IH].
  rewrite <- (Ascii.ascii_nat_embedding b), <- (Ascii.ascii_nat_embedding b').
  f_equal. pose proof (Nat.div_mod_eq (Ascii.nat_of_ascii b) 16) as E.
  pose proof (Nat.div_mod_eq (Ascii.nat_of_ascii b') 16) as E'.
  rewrite Hhi, Hlo in E. congruence.
Qed.

(** What [GenerateRandomState] returns is a state token. *)
Lemma GenerateRandomState_token (env : Env) (state : string) :
  GenerateRandomState env = Ok state → is_state_token state ∧ url_safe state = true.
Proof.
  unfold GenerateRandomState. destruct (rand_Read env) as [random | msg]; [| done].
  intros H. assert (state = hex_encode (random <$> seq 0 16)) as -> by congruence.
  split; [| apply hex_encode_url_safe].
  exists (random <$> seq 0 16). by rewrite length_fmap, length_seq.
Qed.

(** *** The switches *)

Lemma case_of_singleton (s label : string) : case_of s [label] = true ↔ s = label.
Proof. unfold case_of. simpl. rewrite orb_false_r. apply String.eqb_eq. Qed.

Lemma normalize_provider_iflow (provider : string) :
  normalize_provider provider = "iflow" ↔ provider = "iflow".
Proof.
  unfold normalize_provider, case_of. simpl. split; [| by intros ->].
  destruct (String.eqb_spec provider "claude"); [done |].
  destruct (String.eqb_spec provider "anthropic"); [done |].
  destruct (String.eqb_spec provider "gemini"); [done |].
  destruct (String.eqb_spec provider "gemini-cli"); [done |].
  destruct (String.eqb_spec provider "copilot"); [done |].
  destruct (String.eqb_spec provider "github-copilot"); done.
Qed.

Lemma normalize_provider_qwen (provider : string) :
  normalize_provider provider = "qwen" ↔ provider = "qwen".
Proof.
  unfold normalize_provider, case_of. simpl. split; [| by intros ->].
  destruct (String.eqb_spec provider "claude"); [done |].
  destruct (String.eqb_spec provider "anthropic"); [done |].
  destruct (String.eqb_spec provider "gemini"); [done |].
  destruct (String.eqb_spec provider "gemini-cli"); [done |].
  destruct (String.eqb_spec provider "copilot"); [done |].
  destruct (String.eqb_spec provider "github-copilot"); done.
Qed.

(** After normalization the cases of [buildProviderAuthURL] that build a URL
    are the four Web-UI providers. *)
Lemma normalized_web_provider (provider : string) :
  let p := normalize_provider provider in
  case_of p ["claude"; "anthropic"] || case_of p ["codex"]
  || case_of p ["gemini"; "gemini-cli"] || case_of p ["antigravity"]
  = web_provider p.
Proof.
  cbv zeta. unfold normalize_provider, web_provider, case_of. simpl.
  destruct (String.eqb_spec provider "claude"); [done |].
  destruct (String.eqb_spec provider "anthropic"); [done |].
  destruct (String.eqb_spec provider "gemini"); [done |].
  destruct (String.eqb_spec provider "gemini-cli"); [done |].
  destruct (String.eqb_spec provider "copilot"); [done |].
  destruct (String.eqb_spec provider "github-copilot"); [done |].
  simpl.
  destruct (String.eqb_spec provider "claude"); [done |].
  destruct (String.eqb_spec provider "anthropic"); [done |].
  destruct (String.eqb_spec provider "gemini"); [done |].
  destruct (String.eqb_spec provider "gemini-cli"); [done |].
  simpl. by destruct (String.eqb provider "codex"), (String.eqb provider "antigravity").
Qed.

(** A URL the handler builds carries the state [GenerateRandomState] made,
    and it builds one for the Web-UI providers only. *)
Lemma buildProviderAuthURL_state (env : Env) (provider projectID authURL state verifier : string) :
  buildProviderAuthURL env (normalize_provider provider) projectID
    = Ok (authURL, state, verifier) →
  GenerateRandomState env = Ok state
  ∧ web_provider (normalize_provider provider) = true.
Proof.
  unfold buildProviderAuthURL. rewrite <- normalized_web_provider. cbv zeta.
  destruct (GenerateRandomState env) as [generated | msg]; [| done].
  destruct (case_of _ ["claude"; "anthropic"]).
  { unfold buildClaudeAuthURL.
    destruct (claude_GeneratePKCECodes env) as [pkce |]; [| done].
    destruct (claude_GenerateAuthURL env generated pkce); [| done]. by intros [= _ <- _]. }
  destruct (case_of _ ["codex"]).
  { unfold buildCodexAuthURL.
    destruct (codex_GeneratePKCECodes env) as [pkce |]; [| done].
    destruct (codex_GenerateAuthURL env generated pkce); [| done]. by intros [= _ <- _]. }
  destruct (case_of _ ["gemini"; "gemini-cli"]).
  { unfold buildGeminiAuthURL. by intros [= _ <- _]. }
  destruct (case_of _ ["antigravity"]).
  { unfold buildAntigravityAuthURL. by intros [= _ <- _]. }
  done.
Qed.

(** *** The handler *)

(** The sample run for qwen: the response, the flow registered and the
    goroutine started. *)
Example OAuthStart_qwen_sample :
  OAuthStart sample_env idle (Some (mkRequest "qwen" ""))
  = Responded
      (go (pollQwenToken sample_qwen_flow "qwen-1700000000000000000")
          (Registry_Create "qwen-1700000000000000000" "qwen" ModeWebUI idle))
      200
      {| Status := "ok"; FlowType := "device";
         State := "qwen-1700000000000000000"; ID := "qwen-1700000000000000000";
         UserCode := "ABCD-EFGH";
         AuthURL := "https://chat.qwen.ai/authorize?user_code=ABCD-EFGH";
         VerificationURL := "https://chat.qwen.ai/authorize";
         ExpiresIn := 900; Interval := 5;
         Error := ""; CodeVerifier := ""; CodeChallenge := "" |}.
Proof. reflexivity. Qed.

(** The sample run for copilot is keyed by the head of the device code. *)
Example OAuthStart_copilot_sample :
  registry_after (OAuthStart sample_env idle (Some (mkRequest "github-copilot" "")))
    !! "copilot-3584d835"
  = Some (pending_flow "copilot").
Proof. vm_compute. reflexivity. Qed.

(** A device code of fewer than 8 bytes makes the copilot start panic. *)
Example OAuthStart_copilot_short_code :
  OAuthStart
    {| InitiateDeviceFlow := InitiateDeviceFlow sample_env;
       StartDeviceFlow :=
         Ok {| copilot.DeviceCode := "abc"; copilot.UserCode := "WDJB-MJHT";
               copilot.VerificationURI := "https://github.com/login/device";
               copilot.ExpiresIn := 900; copilot.Interval := 5 |};
       UnixNano := UnixNano sample_env;
       rand_Read := rand_Read sample_env;
       claude_GeneratePKCECodes := claude_GeneratePKCECodes sample_env;
       claude_GenerateAuthURL := claude_GenerateAuthURL sample_env;
       codex_GeneratePKCECodes := codex_GeneratePKCECodes sample_env;
       codex_GenerateAuthURL := codex_GenerateAuthURL sample_env;
       AuthCodeURL := AuthCodeURL sample_env;
       GetCallbackPort := GetCallbackPort sample_env;
       GeminiClientID := GeminiClientID sample_env;
       GeminiClientSecret := GeminiClientSecret sample_env;
       AntigravityClientID := AntigravityClientID sample_env;
       AntigravityClientSecret := AntigravityClientSecret sample_env;
       managementCallbackURL := managementCallbackURL sample_env |}
    idle (Some (mkRequest "copilot" ""))
  = Panicked idle.
Proof. reflexivity. Qed.

(** The sample run for a Web-UI provider is keyed by the random state. *)
Example OAuthStart_claude_sample :
  GenerateRandomState sample_env = Ok "00112233445566778899aabbccddeeff"
  ∧ registry_after (OAuthStart sample_env idle (Some (mkRequest "anthropic" "")))
      !! "00112233445566778899aabbccddeeff"
    = Some (pending_flow "claude").
Proof. split; vm_compute; reflexivity. Qed.

(** C8. For every start request whose normalized provider is "iflow",
    whatever the environment and the state: OAuthStart answers HTTP 400 with
    status "error" and the message that sends the caller to
    POST /v0/management/iflow-auth-url, and it leaves the state as it was: no
    flow is registered, no goroutine and no forwarder started. *)
Theorem OAuthStart_iflow_rejected (env : Env) (st : St) (body : option OAuthStartRequest)
    (req : OAuthStartRequest) :
  ShouldBindJSON body = Ok req →
  normalize_provider (Provider req) = "iflow" →
  OAuthStart env st body = Responded st 400 (error_response iflow_error)
  ∧ registry_after (OAuthStart env st body) = registry st
  ∧ member "status" (json_body (error_response iflow_error)) = Some (JString "error")
  ∧ member "error" (json_body (error_response iflow_error)) = Some (JString iflow_error)
  ∧ Contains iflow_error "Use POST /v0/management/iflow-auth-url" = true.
Proof.
  intros Hbind Hprovider.
  assert (Hrun : OAuthStart env st body = Responded st 400 (error_response iflow_error)).
  { unfold OAuthStart. rewrite Hbind. cbv zeta. rewrite Hprovider. reflexivity. }
  rewrite Hrun. repeat split; vm_compute; reflexivity.
Qed.

(** The theorem on the sample run. *)
Lemma OAuthStart_iflow_rejected_witness :
  OAuthStart sample_env idle (Some (mkRequest "iflow" ""))
  = Responded idle 400 (error_response iflow_error).
Proof.
  apply (OAuthStart_iflow_rejected sample_env idle (Some (mkRequest "iflow" ""))
           (mkRequest "iflow" "")); reflexivity.
Defined.

(** C9. For every start request for provider "qwen" for which the upstream
    device authorization succeeds: OAuthStart answers HTTP 200; the body has
    flow_type "device" and carries the user_code, the verification_url (the
    upstream verification_uri), expires_in and interval of the upstream
    answer, and a state under which the handler has registered a pending qwen
    flow. The polling goroutine it starts is recorded, not run. *)
Theorem OAuthStart_qwen_device_flow (env : Env) (st : St) (body : option OAuthStartRequest)
    (req : OAuthStartRequest) (deviceFlow : qwen.DeviceFlow) :
  ShouldBindJSON body = Ok req →
  normalize_provider (Provider req) = "qwen" →
  InitiateDeviceFlow env = Ok deviceFlow →
  ∃ st' obj state,
    OAuthStart env st body = Responded st' 200 obj
    ∧ FlowType obj = "device"
    ∧ UserCode obj = qwen.UserCode deviceFlow
    ∧ VerificationURL obj = qwen.VerificationURI deviceFlow
    ∧ ExpiresIn obj = qwen.ExpiresIn deviceFlow
    ∧ Interval obj = qwen.Interval deviceFlow
    ∧ State obj = state ∧ ID obj = state
    ∧ registry st' !! state = Some (pending_flow "qwen")
    ∧ member "flow_type" (json_body obj) = Some (JString "device")
    ∧ member "state" (json_body obj) = Some (JString state)
    ∧ string_member "user_code" (json_body obj) = qwen.UserCode deviceFlow
    ∧ string_member "verification_url" (json_body obj) = qwen.VerificationURI deviceFlow
    ∧ int_member "expires_in" (json_body obj) = qwen.ExpiresIn deviceFlow
    ∧ int_member "interval" (json_body obj) = qwen.Interval deviceFlow.
Proof.
  intros Hbind Hprovider Hupstream.
  unfold OAuthStart. rewrite Hbind. cbv zeta. rewrite Hprovider.
  change (case_of "qwen" ["qwen"]) with true. cbv iota.
  unfold startQwenDeviceFlow. rewrite Hupstream. cbv zeta.
  eexists _, _, ("qwen-" +:+ Sprintf_d (UnixNano env)).
  split; [reflexivity |].
  rewrite body_user_code, body_verification_url, body_expires_in, body_interval.
  repeat split.
  - apply lookup_insert_eq.
  - member_of_body. reflexivity.
  - member_of_body. reflexivity.
Qed.

(** The theorem on the sample run. *)
Lemma OAuthStart_qwen_device_flow_witness :
  ∃ st' obj state,
    OAuthStart sample_env idle (Some (mkRequest "qwen" "")) = Responded st' 200 obj
    ∧ FlowType obj = "device"
    ∧ UserCode obj = "ABCD-EFGH"
    ∧ VerificationURL obj = "https://chat.qwen.ai/authorize"
    ∧ ExpiresIn obj = 900%Z
    ∧ Interval obj = 5%Z
    ∧ State obj = state ∧ ID obj = state
    ∧ registry st' !! state = Some (pending_flow "qwen")
    ∧ member "flow_type" (json_body obj) = Some (JString "device")
    ∧ member "state" (json_body obj) = Some (JString state)
    ∧ string_member "user_code" (json_body obj) = "ABCD-EFGH"
    ∧ string_member "verification_url" (json_body obj) = "https://chat.qwen.ai/authorize"
    ∧ int_member "expires_in" (json_body obj) = 900%Z
    ∧ int_member "interval" (json_body obj) = 5%Z.
Proof.
  apply (OAuthStart_qwen_device_flow sample_env idle (Some (mkRequest "qwen" ""))
           (mkRequest "qwen" "") sample_qwen_flow); reflexivity.
Defined.

(** The state of a qwen device flow is no random state token: on the sample
    run the handler registers the flow under "qwen-" and the clock reading in
    nanoseconds, 24 characters where a state token has 32, and it does so
    whatever the random source holds. *)
Lemma device_flow_state_not_random :
  registry_after (OAuthStart sample_env idle (Some (mkRequest "qwen" "")))
    !! "qwen-1700000000000000000"
  = Some (pending_flow "qwen")
  ∧ registry idle !! "qwen-1700000000000000000" = None
  ∧ ¬ is_state_token "qwen-1700000000000000000".
Proof.
  split; [vm_compute; reflexivity | split; [reflexivity |]].
  intros Htoken. apply is_state_token_length in Htoken. discriminate.
Qed.

(** C7, as the code has it. A run of OAuthStart leaves the registry as it
    was or registers one pending flow, under a state that is
    - for the Web-UI providers (claude, codex, gemini, antigravity) the random
      state GenerateRandomState made: 16 random bytes, URL-safe;
    - for qwen, "qwen-" and the clock reading in nanoseconds;
    - for copilot, "copilot-" and the first 8 bytes of the upstream device
      code. *)
Theorem OAuthStart_registered_state (env : Env) (st : St) (body : option OAuthStartRequest) :
  registry_after (OAuthStart env st body) = registry st
  ∨ ∃ req state,
      ShouldBindJSON body = Ok req
      ∧ registry_after (OAuthStart env st body)
        = <[state := pending_flow (normalize_provider (Provider req))]> (registry st)
      ∧ ((web_provider (normalize_provider (Provider req)) = true
          ∧ GenerateRandomState env = Ok state
          ∧ is_state_token state ∧ url_safe state = true)
         ∨ (normalize_provider (Provider req) = "qwen"
            ∧ state = "qwen-" +:+ Sprintf_d (UnixNano env))
         ∨ (normalize_provider (Provider req) = "copilot"
            ∧ ∃ deviceCode head,
                StartDeviceFlow env = Ok deviceCode
                ∧ slice_to 8 (copilot.DeviceCode deviceCode) = Some head
                ∧ state = "copilot-" +:+ head)).
Proof.
  unfold OAuthStart. destruct (ShouldBindJSON body) as [req | msg] eqn:Hbind; [| by left].
  cbv zeta. set (provider := normalize_provider (Provider req)).
  destruct (case_of provider ["qwen"]) eqn:Hqwen.
  { apply case_of_singleton in Hqwen. unfold startQwenDeviceFlow.
    destruct (InitiateDeviceFlow env) as [deviceFlow | err]; [| by left].
    right. exists req, ("qwen-" +:+ Sprintf_d (UnixNano env)).
    fold provider. rewrite Hqwen. split; [done |]. split; [reflexivity |].
    right. left. done. }
  destruct (case_of provider ["copilot"]) eqn:Hcopilot.
  { apply case_of_singleton in Hcopilot. unfold startCopilotDeviceFlow.
    destruct (StartDeviceFlow env) as [deviceCode | err] eqn:Hupstream; [| by left].
    destruct (slice_to 8 (copilot.DeviceCode deviceCode)) as [head |] eqn:Hhead; [| by left].
    right. exists req, ("copilot-" +:+ head).
    fold provider. rewrite Hcopilot. split; [done |]. split; [reflexivity |].
    right. right. split; [done |]. by exists deviceCode, head. }
  destruct (case_of provider ["iflow"]); [by left |].
  destruct (buildProviderAuthURL env provider (ProjectID req))
    as [[[authURL state] verifier] | err] eqn:Hbuild; [| by left].
  apply buildProviderAuthURL_state in Hbuild as [Hstate Hweb].
  right. exists req, state. fold provider. split; [done |]. split.
  - destruct (managementCallbackURL env ("/" +:+ provider +:+ "/callback")); [| done].
    by destruct (0 <? GetCallbackPort env provider)%Z.
  - left. destruct (GenerateRandomState_token env state Hstate). done.
Qed.

(** *** The pollers *)

Lemma registry_calls_app (es es' : list PollEvent) :
  registry_calls (es ++ es') = registry_calls es ++ registry_calls es'.
Proof. apply omap_app. Qed.

(** X17. Every poller reports one outcome: a run of pollQwenToken or
    pollCopilotToken makes exactly one call on the registry, Cancel, Fail or
    Complete, about the state it was started for, and releases its context as
    the last thing it does. *)
Theorem poller_one_outcome (penv : PollEnv) (g : Goroutine) :
  registry_calls (run_goroutine penv g) = [goroutine_state g]
  ∧ last (run_goroutine penv g) = Some ContextCancel.
Proof.
  destruct g as [deviceFlow state | deviceCode state]; simpl.
  - unfold run_pollQwenToken. rewrite registry_calls_app, last_snoc. split; [| done].
    destruct (PollForToken penv _ _) as [tokenData | err].
    + cbv zeta. by destruct (saveTokenRecord penv _).
    + by destruct (ctx_Err penv).
  - unfold run_pollCopilotToken. rewrite registry_calls_app, last_snoc. split; [| done].
    destruct (WaitForAuthorization penv deviceCode) as [creds | err].
    + destruct (GetCopilotAPIToken penv _); [| done].
      cbv zeta. by destruct (saveTokenRecord penv _).
    + by destruct (ctx_Err penv).
Qed.

(** X18. pollQwenToken saves a token only when the upstream gave one, under
    a name made from the clock: a record handed to saveTokenRecord is the
    record of a token PollForToken returned, its provider is "qwen", its id
    and file name are "qwen-", the e-mail and ".json", and the e-mail is
    "qwen-" and the clock reading in milliseconds. The flow is completed
    exactly when that save succeeds. *)
Theorem pollQwenToken_saves (penv : PollEnv) (deviceFlow : qwen.DeviceFlow)
    (state : string) :
  (∀ record, SaveToken record ∈ run_pollQwenToken penv deviceFlow state →
     ∃ tokenData,
       PollForToken penv (qwen.DeviceCode deviceFlow) (qwen.CodeVerifier deviceFlow)
         = Ok tokenData
       ∧ record = qwen_record penv tokenData
       ∧ auth_Provider record = "qwen"
       ∧ auth_ID record = "qwen-qwen-" +:+ Sprintf_d (UnixMilli penv) +:+ ".json"
       ∧ auth_FileName record = auth_ID record)
  ∧ (RegistryComplete state state "success" ∈ run_pollQwenToken penv deviceFlow state
     ↔ ∃ tokenData path,
         PollForToken penv (qwen.DeviceCode deviceFlow) (qwen.CodeVerifier deviceFlow)
           = Ok tokenData
         ∧ saveTokenRecord penv (qwen_record penv tokenData) = Ok path).
Proof.
  unfold run_pollQwenToken.
  destruct (PollForToken penv _ _) as [tokenData | err]; cbv zeta.
  - split.
    + intros record Hin. exists tokenData.
      assert (record = qwen_record penv tokenData) as ->.
      { destruct (saveTokenRecord penv _);
          repeat (apply elem_of_cons in Hin as [Hin | Hin]; [congruence |]);
          by apply elem_of_nil in Hin. }
      repeat split.
    + destruct (saveTokenRecord penv (qwen_record penv tokenData))
        as [path | errSave] eqn:Hsave.
      * split; [intros _; by exists tokenData, path |].
        intros _. apply elem_of_cons. right. apply elem_of_cons. by left.
      * split; [| intros (? & ? & [= <-] & ?); congruence].
        intros Hin. repeat (apply elem_of_cons in Hin as [Hin | Hin]; [discriminate |]).
        by apply elem_of_nil in Hin.
  - split.
    + intros record Hin. destruct (ctx_Err penv);
        repeat (apply elem_of_cons in Hin as [Hin | Hin]; [discriminate |]);
        by apply elem_of_nil in Hin.
    + split; [| by intros (? & ? & ? & _)].
      intros Hin. destruct (ctx_Err penv);
        repeat (apply elem_of_cons in Hin as [Hin | Hin]; [discriminate |]);
        by apply elem_of_nil in Hin.
Qed.

(** X19. pollCopilotToken never saves credentials it has not verified: a
    record handed to saveTokenRecord belongs to credentials that
    WaitForAuthorization returned and for whose access token
    GetCopilotAPIToken succeeded. The record is filed under provider
    "github-copilot", with id and file name "github-copilot-", the user name
    and ".json". *)
Theorem pollCopilotToken_saves_verified (penv : PollEnv)
    (deviceCode : copilot.DeviceCodeResponse) (state : string) (record : AuthRecord) :
  SaveToken record ∈ run_pollCopilotToken penv deviceCode state →
  ∃ creds apiToken,
    WaitForAuthorization penv deviceCode = Ok creds
    ∧ GetCopilotAPIToken penv (AccessToken creds) = Ok apiToken
    ∧ record = copilot_record penv creds
    ∧ auth_Provider record = "github-copilot"
    ∧ auth_ID record = "github-copilot-" +:+ Username creds +:+ ".json"
    ∧ auth_FileName record = auth_ID record.
Proof.
  unfold run_pollCopilotToken. intros Hin.
  destruct (WaitForAuthorization penv deviceCode) as [creds | err].
  - destruct (GetCopilotAPIToken penv (AccessToken creds)) as [apiToken | err] eqn:Hverify.
    + exists creds, apiToken. cbv zeta in Hin.
      assert (record = copilot_record penv creds) as ->; [| done].
      destruct (saveTokenRecord penv _);
        repeat (apply elem_of_cons in Hin as [Hin | Hin]; [congruence |]);
        by apply elem_of_nil in Hin.
    + repeat (apply elem_of_cons in Hin as [Hin | Hin]; [discriminate |]).
      by apply elem_of_nil in Hin.
  - destruct (ctx_Err penv);
      repeat (apply elem_of_cons in Hin as [Hin | Hin]; [discriminate |]);
      by apply elem_of_nil in Hin.
Qed.

Lemma pollCopilotToken_saves_verified_witness :
  ∃ creds apiToken,
    WaitForAuthorization sample_poll_env sample_copilot_code = Ok creds
    ∧ GetCopilotAPIToken sample_poll_env (AccessToken creds) = Ok apiToken
    ∧ copilot_record sample_poll_env (mkCredentials "gho_token" "bearer" "read:user" "octocat")
      = copilot_record sample_poll_env creds
    ∧ auth_Provider
        (copilot_record sample_poll_env
           (mkCredentials "gho_token" "bearer" "read:user" "octocat"))
      = "github-copilot"
    ∧ auth_ID
        (copilot_record sample_poll_env
           (mkCredentials "gho_token" "bearer" "read:user" "octocat"))
      = "github-copilot-" +:+ Username creds +:+ ".json"
    ∧ auth_FileName
        (copilot_record sample_poll_env
           (mkCredentials "gho_token" "bearer" "read:user" "octocat"))
      = auth_ID
          (copilot_record sample_poll_env
             (mkCredentials "gho_token" "bearer" "read:user" "octocat")).
Proof.
  apply (pollCopilotToken_saves_verified sample_poll_env sample_copilot_code
           "copilot-3584d835").
  apply list_elem_of_In. simpl. left. reflexivity.
Defined.

(** *** Every way a start can go *)

(** Splits a run of [OAuthStart] into the branches of the handler: the
    binding, the two device flows with their upstream answers, iFlow, and the
    Web-UI providers with the URL built or refused. *)
Ltac start_branches env st body :=
  unfold OAuthStart in *;
  destruct (ShouldBindJSON body) as [req | bindErr] eqn:Hbind; cbv zeta in *;
  [ destruct (case_of (normalize_provider (Provider req)) ["qwen"]) eqn:Hqwen;
    [ apply case_of_singleton in Hqwen; unfold startQwenDeviceFlow in *;
      destruct (InitiateDeviceFlow env) as [deviceFlow | upstreamErr] eqn:Hupstream;
      cbv zeta in *
    | destruct (case_of (normalize_provider (Provider req)) ["copilot"]) eqn:Hcopilot;
      [ apply case_of_singleton in Hcopilot; unfold startCopilotDeviceFlow in *;
        destruct (StartDeviceFlow env) as [deviceCode | upstreamErr] eqn:Hupstream;
        [ destruct (slice_to 8 (copilot.DeviceCode deviceCode)) as [head |] eqn:Hhead;
          cbv zeta in *
        | ]
      | destruct (case_of (normalize_provider (Provider req)) ["iflow"]) eqn:Hiflow;
        [ | destruct (buildProviderAuthURL env (normalize_provider (Provider req))
                        (ProjectID req))
              as [[[authURL state] verifier] | buildErr] eqn:Hbuild ] ] ]
  | ].

(** Every refusal of [buildProviderAuthURL] carries a message. *)
Lemma buildProviderAuthURL_error (env : Env) (provider projectID msg : string) :
  buildProviderAuthURL env provider projectID = Err msg → msg ≠ "".
Proof.
  unfold buildProviderAuthURL, buildClaudeAuthURL, buildCodexAuthURL, buildGeminiAuthURL,
    buildAntigravityAuthURL.
  destruct (GenerateRandomState env) as [state |];
    [| intros [= <-]; apply app_not_empty].
  destruct (case_of provider ["claude"; "anthropic"]).
  { destruct (claude_GeneratePKCECodes env) as [pkce |];
      [| intros [= <-]; apply app_not_empty].
    destruct (claude_GenerateAuthURL env state pkce); [done |].
    intros [= <-]. apply app_not_empty. }
  destruct (case_of provider ["codex"]).
  { destruct (codex_GeneratePKCECodes env) as [pkce |];
      [| intros [= <-]; apply app_not_empty].
    destruct (codex_GenerateAuthURL env state pkce); [done |].
    intros [= <-]. apply app_not_empty. }
  destruct (case_of provider ["gemini"; "gemini-cli"]); [done |].
  destruct (case_of provider ["antigravity"]); [done |].
  intros [= <-]. apply app_not_empty.
Qed.

(** X20. A refusal changes nothing: whenever OAuthStart answers with a code
    other than 200, the code is 400 or 500, the state of the service is
    exactly what it was (no flow registered, no goroutine, no forwarder), and
    the body is an error body: status "error", a message that is not empty
    and nothing else. *)
Theorem OAuthStart_refusal (env : Env) (st st' : St) (body : option OAuthStartRequest)
    (code : Z) (obj : OAuthStartResponse) :
  OAuthStart env st body = Responded st' code obj →
  code ≠ 200%Z →
  st' = st ∧ (code = 400%Z ∨ code = 500%Z)
  ∧ obj = error_response (Error obj) ∧ Error obj ≠ "".
Proof.
  intros Hrun Hcode. start_branches env st body;
    try discriminate Hrun; injection Hrun as <- <- <-; try done;
    (split; [done |]); (split; [by (left + right) |]); (split; [done |]); simpl;
    try apply app_not_empty; try discriminate.
  by apply buildProviderAuthURL_error in Hbuild.
Qed.

Lemma OAuthStart_refusal_witness :
  idle = idle ∧ (500 = 400 ∨ 500 = 500)%Z
  ∧ error_response "Failed to initiate device flow: connection refused"
    = error_response
        (Error (error_response "Failed to initiate device flow: connection refused"))
  ∧ Error (error_response "Failed to initiate device flow: connection refused") ≠ "".
Proof.
  apply (OAuthStart_refusal sample_env_down idle idle (Some (mkRequest "qwen" "")));
    [reflexivity | discriminate].
Defined.

Lemma registry_startCallbackForwarder (port : Z) (provider target : string) (st : St) :
  registry (startCallbackForwarder port provider target st) = registry st.
Proof. reflexivity. Qed.

(** X21. An acceptance has one shape: whenever OAuthStart answers 200, the
    body has status "ok", no error, an id equal to the state, no
    code_challenge and flow type "oauth" or "device", and the state it
    returns is the key under which the flow is now registered as pending for
    the normalized provider. *)
Theorem OAuthStart_acceptance (env : Env) (st st' : St) (body : option OAuthStartRequest)
    (obj : OAuthStartResponse) :
  OAuthStart env st body = Responded st' 200 obj →
  Status obj = "ok" ∧ Error obj = "" ∧ ID obj = State obj ∧ CodeChallenge obj = ""
  ∧ (FlowType obj = "oauth" ∨ FlowType obj = "device")
  ∧ ∃ req, ShouldBindJSON body = Ok req
      ∧ registry st' !! State obj = Some (pending_flow (normalize_provider (Provider req))).
Proof.
  intros Hrun. start_branches env st body;
    try discriminate Hrun; injection Hrun as <- <-; simpl;
    (do 4 (split; [done |])); (split; [by (left + right) |]); exists req; (split; [done |]).
  - rewrite Hqwen. apply lookup_insert_eq.
  - rewrite Hcopilot. apply lookup_insert_eq.
  - destruct (managementCallbackURL env _); [| apply lookup_insert_eq].
    destruct (0 <? GetCallbackPort env _)%Z; apply lookup_insert_eq.
Qed.

Lemma OAuthStart_acceptance_witness :
  ∃ st' obj,
    OAuthStart sample_env idle (Some (mkRequest "codex" "")) = Responded st' 200 obj
    ∧ Status obj = "ok" ∧ Error obj = "" ∧ ID obj = State obj ∧ CodeChallenge obj = ""
    ∧ (FlowType obj = "oauth" ∨ FlowType obj = "device")
    ∧ ∃ req, ShouldBindJSON (Some (mkRequest "codex" "")) = Ok req
        ∧ registry st' !! State obj
          = Some (pending_flow (normalize_provider (Provider req))).
Proof.
  eexists _, _. split; [reflexivity |].
  apply (OAuthStart_acceptance sample_env idle _ (Some (mkRequest "codex" ""))).
  reflexivity.
Defined.

(** X22. Only a failing upstream device authorization is answered with 500,
    and the message passes the upstream error on: a 500 from OAuthStart means
    the provider is qwen and InitiateDeviceFlow failed, or copilot and
    StartDeviceFlow failed. *)
Theorem OAuthStart_upstream_failure (env : Env) (st st' : St)
    (body : option OAuthStartRequest) (obj : OAuthStartResponse) :
  OAuthStart env st body = Responded st' 500 obj →
  ∃ req err,
    ShouldBindJSON body = Ok req
    ∧ ((normalize_provider (Provider req) = "qwen"
        ∧ InitiateDeviceFlow env = Err err
        ∧ Error obj = "Failed to initiate device flow: " +:+ err)
       ∨ (normalize_provider (Provider req) = "copilot"
          ∧ StartDeviceFlow env = Err err
          ∧ Error obj = "Failed to start device flow: " +:+ err)).
Proof.
  intros Hrun. start_branches env st body;
    try discriminate Hrun; injection Hrun as <- <-; exists req, upstreamErr;
    (split; [done |]); [left | right]; done.
Qed.

Lemma OAuthStart_upstream_failure_witness :
  ∃ req err,
    ShouldBindJSON (Some (mkRequest "github-copilot" "")) = Ok req
    ∧ ((normalize_provider (Provider req) = "qwen"
        ∧ InitiateDeviceFlow sample_env_down = Err err
        ∧ Error (error_response "Failed to start device flow: connection refused")
          = "Failed to initiate device flow: " +:+ err)
       ∨ (normalize_provider (Provider req) = "copilot"
          ∧ StartDeviceFlow sample_env_down = Err err
          ∧ Error (error_response "Failed to start device flow: connection refused")
            = "Failed to start device flow: " +:+ err)).
Proof.
  apply (OAuthStart_upstream_failure sample_env_down idle idle
           (Some (mkRequest "github-copilot" ""))).
  reflexivity.
Defined.

(** X23. A start request counts only through its normalized provider: two
    requests whose providers normalize alike ("anthropic" and "claude",
    "gemini-cli" and "gemini", "github-copilot" and "copilot") are handled
    identically in every environment and state, and the project id of the
    request is never used. *)
Theorem OAuthStart_normalized (env : Env) (st : St) (p p' projectID projectID' : string) :
  p ≠ "" → p' ≠ "" →
  normalize_provider p = normalize_provider p' →
  OAuthStart env st (Some (mkRequest p projectID))
  = OAuthStart env st (Some (mkRequest p' projectID')).
Proof.
  intros Hp Hp' Hsame. unfold OAuthStart, ShouldBindJSON. simpl.
  apply String.eqb_neq in Hp, Hp'. rewrite Hp, Hp'. simpl. by rewrite Hsame.
Qed.

Lemma OAuthStart_normalized_witness :
  OAuthStart sample_env idle (Some (mkRequest "anthropic" "project-1"))
  = OAuthStart sample_env idle (Some (mkRequest "claude" "")).
Proof. apply OAuthStart_normalized; [discriminate | discriminate | reflexivity]. Defined.

(** X24. OAuthStart panics exactly on a short copilot device code: the run
    ends in a panic, with the state untouched, if and only if the provider is
    copilot and the upstream answered with a device code of fewer than 8
    bytes, which the slice for the state cannot be cut from. *)
Theorem OAuthStart_panics (env : Env) (st st' : St) (body : option OAuthStartRequest) :
  OAuthStart env st body = Panicked st'
  ↔ st' = st
    ∧ ∃ req deviceCode,
        ShouldBindJSON body = Ok req
        ∧ normalize_provider (Provider req) = "copilot"
        ∧ StartDeviceFlow env = Ok deviceCode
        ∧ (String.length (copilot.DeviceCode deviceCode) < 8)%nat.
Proof.
  split.
  - intros Hrun. start_branches env st body; try discriminate Hrun.
    injection Hrun as <-. split; [done |]. exists req, deviceCode.
    repeat split; try done. by apply slice_to_None.
  - intros [-> (req & deviceCode & Hbind & Hprovider & Hupstream & Hshort)].
    apply slice_to_None in Hshort.
    unfold OAuthStart. rewrite Hbind. cbv zeta. rewrite Hprovider.
    change (case_of "copilot" ["qwen"]) with false.
    change (case_of "copilot" ["copilot"]) with true. cbv iota.
    unfold startCopilotDeviceFlow. by rewrite Hupstream, Hshort.
Qed.

Lemma not_known_provider (provider : string) :
  provider ∉ known_providers →
  normalize_provider provider = provider
  ∧ case_of provider ["qwen"] = false ∧ case_of provider ["copilot"] = false
  ∧ case_of provider ["iflow"] = false
  ∧ case_of provider ["claude"; "anthropic"] = false ∧ case_of provider ["codex"] = false
  ∧ case_of provider ["gemini"; "gemini-cli"] = false
  ∧ case_of provider ["antigravity"] = false.
Proof.
  unfold known_providers. rewrite !not_elem_of_cons.
  intros (H1 & H2 & H3 & H4 & H5 & H6 & H7 & H8 & H9 & H10 & _).
  apply String.eqb_neq in H1, H2, H3, H4, H5, H6, H7, H8, H9, H10.
  unfold normalize_provider, case_of. simpl.
  by rewrite H1, H2, H3, H4, H5, H6, H7, H8, H9, H10.
Qed.

(** X25. A provider the handler has no case for is refused with 400 and
    nothing changes. The message names the provider, unless the random source
    fails: the state is generated before the provider is looked at, and then
    the message is that of the failed state. *)
Theorem OAuthStart_unknown_provider (env : Env) (st : St) (body : option OAuthStartRequest)
    (req : OAuthStartRequest) :
  ShouldBindJSON body = Ok req →
  Provider req ∉ known_providers →
  OAuthStart env st body
  = Responded st 400
      (error_response
         match GenerateRandomState env with
         | Ok _ =>
             "unsupported OAuth provider: " +:+ Provider req
             +:+ ". Use device flow for qwen/copilot, or cookie auth for iflow"
         | Err err => "failed to generate state: " +:+ err
         end).
Proof.
  intros Hbind Hunknown.
  destruct (not_known_provider _ Hunknown)
    as (Hnorm & Hqwen & Hcopilot & Hiflow & Hclaude & Hcodex & Hgemini & Hantigravity).
  unfold OAuthStart. rewrite Hbind. cbv zeta. rewrite Hnorm, Hqwen, Hcopilot, Hiflow.
  unfold buildProviderAuthURL. destruct (GenerateRandomState env); [| done].
  by rewrite Hclaude, Hcodex, Hgemini, Hantigravity.
Qed.

Lemma OAuthStart_unknown_provider_witness :
  OAuthStart sample_env idle (Some (mkRequest "kiro" ""))
  = Responded idle 400
      (error_response
         match GenerateRandomState sample_env with
         | Ok _ =>
             "unsupported OAuth provider: " +:+ "kiro"
             +:+ ". Use device flow for qwen/copilot, or cookie auth for iflow"
         | Err err => "failed to generate state: " +:+ err
         end).
Proof.
  apply (OAuthStart_unknown_provider sample_env idle (Some (mkRequest "kiro" ""))
           (mkRequest "kiro" "")); [reflexivity |].
  apply (bool_decide_unpack _). vm_compute. exact I.
Defined.

Lemma run_goroutine_registry_calls (penv : PollEnv) (g : Goroutine) :
  registry_calls (run_goroutine penv g) = [goroutine_state g].
Proof.
  destruct g as [deviceFlow state | deviceCode state]; simpl.
  - unfold run_pollQwenToken. rewrite registry_calls_app.
    destruct (PollForToken penv _ _) as [tokenData | err].
    + cbv zeta. by destruct (saveTokenRecord penv _).
    + by destruct (ctx_Err penv).
  - unfold run_pollCopilotToken. rewrite registry_calls_app.
    destruct (WaitForAuthorization penv deviceCode) as [creds | err].
    + destruct (GetCopilotAPIToken penv _); [| done].
      cbv zeta. by destruct (saveTokenRecord penv _).
    + by destruct (ctx_Err penv).
Qed.

(** X26. The flow a device start registers is the flow its poller reports
    on: when OAuthStart answers a device flow, it has started exactly one
    goroutine, and whatever that poller meets, its one call on the registry
    is about the state the answer returned. *)
Theorem OAuthStart_then_poll (env : Env) (st st' : St) (body : option OAuthStartRequest)
    (code : Z) (obj : OAuthStartResponse) :
  OAuthStart env st body = Responded st' code obj →
  FlowType obj = "device" →
  ∃ g, goroutines st' = goroutines st ++ [g]
    ∧ ∀ penv, registry_calls (run_goroutine penv g) = [State obj].
Proof.
  intros Hrun Hdevice. start_branches env st body;
    try discriminate Hrun; injection Hrun as <- <- <-; try discriminate Hdevice.
  - eexists. split; [reflexivity |]. intros penv. apply run_goroutine_registry_calls.
  - eexists. split; [reflexivity |]. intros penv. apply run_goroutine_registry_calls.
Qed.

Lemma OAuthStart_then_poll_witness :
  ∃ g, goroutines
         (go (pollQwenToken sample_qwen_flow "qwen-1700000000000000000")
             (Registry_Create "qwen-1700000000000000000" "qwen" ModeWebUI idle))
       = goroutines idle ++ [g]
    ∧ ∀ penv, registry_calls (run_goroutine penv g) = ["qwen-1700000000000000000"].
Proof.
  apply (OAuthStart_then_poll sample_env idle _ (Some (mkRequest "qwen" "")) 200
           {| Status := "ok"; FlowType := "device";
              State := "qwen-1700000000000000000"; ID := "qwen-1700000000000000000";
              UserCode := "ABCD-EFGH";
              AuthURL := "https://chat.qwen.ai/authorize?user_code=ABCD-EFGH";
              VerificationURL := "https://chat.qwen.ai/authorize";
              ExpiresIn := 900; Interval := 5;
              Error := ""; CodeVerifier := ""; CodeChallenge := "" |});
    reflexivity.
Defined.

(** X27. Pollers belong to device flows and forwarders to Web-UI flows: a
    Web-UI acceptance starts no goroutine and at most one callback forwarder,
    on the provider's callback port when that is positive and the management
    callback URL could be built; a device acceptance starts no forwarder. *)
Theorem OAuthStart_background (env : Env) (st st' : St) (body : option OAuthStartRequest)
    (obj : OAuthStartResponse) :
  OAuthStart env st body = Responded st' 200 obj →
  (FlowType obj = "device" → forwarders st' = forwarders st)
  ∧ (FlowType obj = "oauth" →
       goroutines st' = goroutines st
       ∧ ∃ req, ShouldBindJSON body = Ok req
           ∧ forwarders st'
             = forwarders st
               ++ match managementCallbackURL env
                          ("/" +:+ normalize_provider (Provider req) +:+ "/callback") with
                  | Ok targetURL =>
                      if (0 <? GetCallbackPort env (normalize_provider (Provider req)))%Z
                      then [(GetCallbackPort env (normalize_provider (Provider req)),
                             normalize_provider (Provider req), targetURL)]
                      else []
                  | Err _ => []
                  end).
Proof.
  intros Hrun. start_branches env st body;
    try discriminate Hrun; injection Hrun as <- <-; simpl;
    (split; [try done | try done]).
  intros _. split.
  - destruct (managementCallbackURL env _); [| done].
    by destruct (0 <? GetCallbackPort env _)%Z.
  - exists req. split; [done |].
    destruct (managementCallbackURL env _); [| by rewrite (right_id_L [] (++))].
    destruct (0 <? GetCallbackPort env _)%Z; [done | by rewrite (right_id_L [] (++))].
Qed.

Lemma OAuthStart_background_witness :
  ∃ st' obj,
    OAuthStart sample_env idle (Some (mkRequest "gemini-cli" "")) = Responded st' 200 obj
    ∧ (FlowType obj = "device" → forwarders st' = forwarders idle)
    ∧ (FlowType obj = "oauth" →
         goroutines st' = goroutines idle
         ∧ ∃ req, ShouldBindJSON (Some (mkRequest "gemini-cli" "")) = Ok req
             ∧ forwarders st'
               = forwarders idle
                 ++ match managementCallbackURL sample_env
                            ("/" +:+ normalize_provider (Provider req) +:+ "/callback") with
                    | Ok targetURL =>
                        if (0 <? GetCallbackPort sample_env
                                   (normalize_provider (Provider req)))%Z
                        then [(GetCallbackPort sample_env (normalize_provider (Provider req)),
                               normalize_provider (Provider req), targetURL)]
                        else []
                    | Err _ => []
                    end).
Proof.
  eexists _, _. split; [reflexivity |].
  eapply (OAuthStart_background sample_env idle). reflexivity.
Defined.

Lemma normalized_claude (provider : string) :
  case_of (normalize_provider provider) ["claude"; "anthropic"] = true →
  normalize_provider provider = "claude".
Proof.
  unfold normalize_provider, case_of. simpl.
  destruct (String.eqb_spec provider "claude"); [done |].
  destruct (String.eqb_spec provider "anthropic"); [done |].
  destruct (String.eqb_spec provider "gemini"); [done |].
  destruct (String.eqb_spec provider "gemini-cli"); [done |].
  destruct (String.eqb_spec provider "copilot"); [done |].
  destruct (String.eqb_spec provider "github-copilot"); [done |].
  simpl.
  destruct (String.eqb_spec provider "claude"); [done |].
  destruct (String.eqb_spec provider "anthropic"); done.
Qed.

Lemma normalized_gemini (provider : string) :
  case_of (normalize_provider provider) ["gemini"; "gemini-cli"] = true →
  normalize_provider provider = "gemini".
Proof.
  unfold normalize_provider, case_of. simpl.
  destruct (String.eqb_spec provider "claude"); [done |].
  destruct (String.eqb_spec provider "anthropic"); [done |].
  destruct (String.eqb_spec provider "gemini"); [done |].
  destruct (String.eqb_spec provider "gemini-cli"); [done |].
  destruct (String.eqb_spec provider "copilot"); [done |].
  destruct (String.eqb_spec provider "github-copilot"); [done |].
  simpl.
  destruct (String.eqb_spec provider "gemini"); [done |].
  destruct (String.eqb_spec provider "gemini-cli"); done.
Qed.

(** X28. The authorization URL of a Web-UI answer is built for the state the
    answer returns. For claude and codex it is the provider's URL for that
    state and the PKCE codes generated, and the answer carries their code
    verifier; for gemini and antigravity it is the Google URL for that state
    with the redirect to the provider's callback port on localhost, and the
    answer carries no code verifier. *)
Theorem OAuthStart_auth_url (env : Env) (st st' : St) (body : option OAuthStartRequest)
    (obj : OAuthStartResponse) :
  OAuthStart env st body = Responded st' 200 obj →
  FlowType obj = "oauth" →
  ∃ req, ShouldBindJSON body = Ok req
    ∧ ((normalize_provider (Provider req) = "claude"
        ∧ ∃ pkce, claude_GeneratePKCECodes env = Ok pkce
            ∧ claude_GenerateAuthURL env (State obj) pkce = Ok (AuthURL obj)
            ∧ CodeVerifier obj = pkce_CodeVerifier pkce)
       ∨ (normalize_provider (Provider req) = "codex"
          ∧ ∃ pkce, codex_GeneratePKCECodes env = Ok pkce
              ∧ codex_GenerateAuthURL env (State obj) pkce = Ok (AuthURL obj)
              ∧ CodeVerifier obj = pkce_CodeVerifier pkce)
       ∨ (normalize_provider (Provider req) = "gemini"
          ∧ CodeVerifier obj = ""
          ∧ ∃ conf, AuthURL obj = AuthCodeURL env conf (State obj)
              ∧ RedirectURL conf
                = "http://localhost:" +:+ Sprintf_d (GetCallbackPort env "gemini")
                  +:+ "/oauth2callback")
       ∨ (normalize_provider (Provider req) = "antigravity"
          ∧ CodeVerifier obj = ""
          ∧ ∃ conf, AuthURL obj = AuthCodeURL env conf (State obj)
              ∧ RedirectURL conf
                = "http://localhost:" +:+ Sprintf_d (GetCallbackPort env "antigravity")
                  +:+ "/oauth-callback")).
Proof.
  intros Hrun Hoauth. start_branches env st body;
    try discriminate Hrun; injection Hrun as <- <-; try discriminate Hoauth.
  exists req. split; [done |]. simpl. clear Hoauth.
  unfold buildProviderAuthURL in Hbuild.
  destruct (GenerateRandomState env) as [generated |]; [| done].
  destruct (case_of _ ["claude"; "anthropic"]) eqn:Hclaude.
  { left. split; [by apply normalized_claude |]. unfold buildClaudeAuthURL in Hbuild.
    destruct (claude_GeneratePKCECodes env) as [pkce |]; [| done].
    destruct (claude_GenerateAuthURL env generated pkce) as [url |] eqn:Hurl; [| done].
    exists pkce. split; [done |]. by assert (authURL = url ∧ state = generated
      ∧ verifier = pkce_CodeVerifier pkce) as (-> & -> & ->) by (split_and!; congruence). }
  destruct (case_of _ ["codex"]) eqn:Hcodex.
  { right. left. split; [by apply case_of_singleton |]. unfold buildCodexAuthURL in Hbuild.
    destruct (codex_GeneratePKCECodes env) as [pkce |]; [| done].
    destruct (codex_GenerateAuthURL env generated pkce) as [url |] eqn:Hurl; [| done].
    exists pkce. split; [done |]. by assert (authURL = url ∧ state = generated
      ∧ verifier = pkce_CodeVerifier pkce) as (-> & -> & ->) by (split_and!; congruence). }
  destruct (case_of _ ["gemini"; "gemini-cli"]) eqn:Hgemini.
  { right. right. left. split; [by apply normalized_gemini |].
    unfold buildGeminiAuthURL in Hbuild. cbv zeta in Hbuild.
    injection Hbuild as <- <- <-. split; [done |]. eexists. split; reflexivity. }
  destruct (case_of _ ["antigravity"]) eqn:Hantigravity; [| done].
  right. right. right. split; [by apply case_of_singleton |].
  unfold buildAntigravityAuthURL in Hbuild. cbv zeta in Hbuild.
  injection Hbuild as <- <- <-. split; [done |]. eexists. split; reflexivity.
Qed.

Lemma OAuthStart_auth_url_witness :
  ∃ st' obj,
    OAuthStart sample_env idle (Some (mkRequest "claude" "")) = Responded st' 200 obj
    ∧ AuthURL obj
      = "https://claude.ai/oauth/authorize?state=00112233445566778899aabbccddeeff"
    ∧ ∃ req, ShouldBindJSON (Some (mkRequest "claude" "")) = Ok req
        ∧ ((normalize_provider (Provider req) = "claude"
            ∧ ∃ pkce, claude_GeneratePKCECodes sample_env = Ok pkce
                ∧ claude_GenerateAuthURL sample_env (State obj) pkce = Ok (AuthURL obj)
                ∧ CodeVerifier obj = pkce_CodeVerifier pkce)
           ∨ (normalize_provider (Provider req) = "codex"
              ∧ ∃ pkce, codex_GeneratePKCECodes sample_env = Ok pkce
                  ∧ codex_GenerateAuthURL sample_env (State obj) pkce = Ok (AuthURL obj)
                  ∧ CodeVerifier obj = pkce_CodeVerifier pkce)
           ∨ (normalize_provider (Provider req) = "gemini"
              ∧ CodeVerifier obj = ""
              ∧ ∃ conf, AuthURL obj = AuthCodeURL sample_env conf (State obj)
                  ∧ RedirectURL conf
                    = "http://localhost:" +:+ Sprintf_d (GetCallbackPort sample_env "gemini")
                      +:+ "/oauth2callback")
           ∨ (normalize_provider (Provider req) = "antigravity"
              ∧ CodeVerifier obj = ""
              ∧ ∃ conf, AuthURL obj = AuthCodeURL sample_env conf (State obj)
                  ∧ RedirectURL conf
                    = "http://localhost:"
                      +:+ Sprintf_d (GetCallbackPort sample_env "antigravity")
                      +:+ "/oauth-callback")).
Proof.
  eexists _, _. split; [reflexivity |]. split; [reflexivity |].
  eapply (OAuthStart_auth_url sample_env idle); reflexivity.
Defined.

End ManagementFacts.

(** ** The slice pools *)

Module SlicePoolFacts.
Import IR.

Section WithElements.

Context {A : Type} (zero : A).

Lemma clear_prefix (n : nat) (arr : list A) :
  (n ≤ length arr)%nat →
  foldl (fun arr i => <[i := zero]> arr) arr (seq 0 n) = replicate n zero ++ drop n arr.
Proof.
  induction n as [|n IH]; intros Hn; [done |].
  rewrite seq_S, foldl_app, IH by lia. cbn [foldl Nat.add].
  destruct (lookup_lt_is_Some_2 arr n) as [x Hx]; [lia |].
  rewrite (drop_S arr x n Hx).
  rewrite insert_app_r_alt by (rewrite length_replicate; lia).
  rewrite length_replicate, Nat.sub_diag.
  rewrite replicate_S_end, <- (assoc_L (++)). done.
Qed.

(** X29. What PutAnySlice and PutStringSlice put into the pool holds none of
    the elements the slice showed: the slice that GetAnySlice or
    GetStringSlice makes of it is empty, has at least the capacity asked for,
    and shows only zero values (nil, the empty string) when it is extended
    again within the old length. *)
Theorem GetSlice_PutSlice (s : Slice) (capHint : Z) :
  (len s ≤ cap s)%nat →
  elements (GetSlice zero (PutSlice zero s) capHint) = []
  ∧ (capHint ≤ Z.of_nat (cap (GetSlice zero (PutSlice zero s) capHint)))%Z
  ∧ ∀ n, (n ≤ len s)%nat → (n ≤ cap (GetSlice zero (PutSlice zero s) capHint))%nat →
      elements (reslice n (GetSlice zero (PutSlice zero s) capHint)) = replicate n zero.
Proof.
  intros Hwf. unfold GetSlice, PutSlice, clear_elements, reslice, elements, cap in *.
  cbv zeta. simpl. rewrite clear_prefix by done.
  assert (Hlen : length (replicate (len s) zero ++ drop (len s) (array s)) = length (array s))
    by (rewrite length_app, length_replicate, length_drop; lia).
  rewrite Hlen.
  destruct (Z.ltb_spec (Z.of_nat (length (array s))) capHint); simpl.
  - rewrite length_replicate. split; [done |]. split; [lia |].
    intros n _ Hn. rewrite take_replicate. f_equal. lia.
  - rewrite Hlen. split; [done |]. split; [lia |].
    intros n Hn _. rewrite take_app_le by (rewrite length_replicate; lia).
    rewrite take_replicate. f_equal. lia.
Qed.

End WithElements.

(** A slice of three strings out of a backing array of four, put back and
    taken again. *)
Lemma GetSlice_PutSlice_witness :
  elements (GetSlice "" (PutSlice "" (mkSlice ["a"; "b"; "c"; "d"] 3)) 2) = []
  ∧ (2 ≤ Z.of_nat (cap (GetSlice "" (PutSlice "" (mkSlice ["a"; "b"; "c"; "d"] 3)) 2)))%Z
  ∧ ∀ n, (n ≤ len (mkSlice ["a"; "b"; "c"; "d"] 3))%nat →
      (n ≤ cap (GetSlice "" (PutSlice "" (mkSlice ["a"; "b"; "c"; "d"] 3)) 2))%nat →
      elements (reslice n (GetSlice "" (PutSlice "" (mkSlice ["a"; "b"; "c"; "d"] 3)) 2))
      = replicate n "".
Proof. apply GetSlice_PutSlice. vm_compute. lia. Defined.

(** The element past the old length is not cleared. *)
Example PutSlice_beyond_length :
  array (PutSlice "" (mkSlice ["a"; "b"; "c"; "d"] 3)) = [""; ""; ""; "d"].
Proof. reflexivity. Qed.

End SlicePoolFacts.
